(** * WiredTiger ticket read/write lock (support/mtx_rw.c)

    A shallow embedding of the read/write ticket lock of
    [src/third_party/wiredtiger/src/support/mtx_rw.c].

    The development has three layers:
    - the lock word: the 64-bit union [WT_RWLOCK] with its four 16-bit
      fields, and the atomic primitives the code calls on it;
    - the functions of the file run by a single caller (state passing);
    - an interleaving model: a pool of threads, each with a program
      counter, where every atomic primitive and every plain load or store
      of the source is one step of one thread. *)

From Stdlib Require Import ZArith List Bool Lia Arith.
Import ListNotations.

Local Open Scope Z_scope.

Ltac Zify.zify_post_hook ::= Z.div_mod_to_equations.

(** ** The lock word *)

Module Word.

(** Modelled from the spec: the declaration of [WT_RWLOCK] (mutex.h) is not
    part of the sources at hand.  The lock is a union of a 64-bit value [u],
    a 32-bit view [i.wr] over the writers/readers half, and a struct [s] of
    four unsigned 16-bit counters [writers], [readers], [next],
    [writers_active], in that order.  The word is kept as the 64-bit
    integer [u]; the counters are its four 16-bit digits, lowest first. *)
Definition WT_RWLOCK := Z.

Definition B16 : Z := 65536.
Definition B32 : Z := 4294967296.
Definition B48 : Z := 281474976710656.
Definition B64 : Z := 18446744073709551616.

(** Truncation of a C expression to [uint16_t]. *)
Definition u16 (v : Z) : Z := v mod B16.

Definition writers (l : WT_RWLOCK) : Z := l mod B16.
Definition readers (l : WT_RWLOCK) : Z := (l / B16) mod B16.
Definition next (l : WT_RWLOCK) : Z := (l / B32) mod B16.
Definition writers_active (l : WT_RWLOCK) : Z := (l / B48) mod B16.

(** The view [l->i.wr]: the low 32 bits, that is [writers] and [readers]. *)
Definition i_wr (l : WT_RWLOCK) : Z := l mod B32.

Definition set_writers (l : WT_RWLOCK) (v : Z) : WT_RWLOCK :=
  l - writers l + u16 v.
Definition set_readers (l : WT_RWLOCK) (v : Z) : WT_RWLOCK :=
  l - readers l * B16 + u16 v * B16.
Definition set_next (l : WT_RWLOCK) (v : Z) : WT_RWLOCK :=
  l - next l * B32 + u16 v * B32.
Definition set_writers_active (l : WT_RWLOCK) (v : Z) : WT_RWLOCK :=
  l - writers_active l * B48 + u16 v * B48.

(** The store [l->i.wr = v]: replaces the low 32 bits only. *)
Definition set_i_wr (l : WT_RWLOCK) (v : Z) : WT_RWLOCK :=
  l - i_wr l + v mod B32.

(** A value of type [uint64_t]. *)
Definition wf (l : WT_RWLOCK) : Prop := 0 <= l < B64.

Definition pack (w r n a : Z) : WT_RWLOCK := w + r * B16 + n * B32 + a * B48.

End Word.

Import Word.

(** ** Atomic primitives and constants *)

(** [EBUSY] of errno.h. *)
Definition EBUSY : Z := 16.

(** [WT_THOUSAND] of misc.h. *)
Definition WT_THOUSAND : Z := 1000.

(** Modelled from the spec: the atomic primitives of the platform headers
    are not part of the sources at hand.  A compare-and-swap updates the
    word to the new value only if it currently equals the expected old
    value, otherwise fails without effect; fetch-and-add returns the value
    the field had; add and subtract are applied to one 16-bit field. *)
Definition __wt_atomic_cas64 (l old new : WT_RWLOCK) : bool * WT_RWLOCK :=
  if l =? old then (true, new) else (false, l).

Definition __wt_atomic_fetch_add16_next (l : WT_RWLOCK) (v : Z)
  : Z * WT_RWLOCK :=
  (next l, set_next l (next l + v)).

Definition __wt_atomic_add16_writers (l : WT_RWLOCK) (v : Z) : WT_RWLOCK :=
  set_writers l (writers l + v).

Definition __wt_atomic_add16_writers_active (l : WT_RWLOCK) (v : Z)
  : WT_RWLOCK :=
  set_writers_active l (writers_active l + v).

Definition __wt_atomic_sub16_writers_active (l : WT_RWLOCK) (v : Z)
  : WT_RWLOCK :=
  set_writers_active l (writers_active l - v).

(** The value of a C [int]: 32 bits, two's complement. *)
Definition int_wrap (v : Z) : Z :=
  (v + 2147483648) mod 4294967296 - 2147483648.

(** The increment [++pause_cnt] of a C [int], as the compiled code
    computes it: it wraps from 2^31 - 1 to -2^31 (the C standard leaves
    that overflow undefined).  The loops compare the counter with
    [WT_THOUSAND] only to choose between a pause and a yield or a sleep,
    none of which touches the lock. *)
Definition int_incr (v : Z) : Z := int_wrap (v + 1).

(** ** The functions of mtx_rw.c, run by a single caller

    Each function takes the lock word and returns the new one (with the
    return code, where the C function has one).  The session argument is
    only used for statistics and is left out. *)

Definition __wt_rwlock_init : WT_RWLOCK := 0.

Definition __wt_rwlock_destroy (l : WT_RWLOCK) : WT_RWLOCK := 0.

(** [__wt_try_readlock] from the test on: [old] is the snapshot
    [new = old = *l] and [l] the word in memory when the compare-and-swap
    runs. *)
Definition __wt_try_readlock_from (old l : WT_RWLOCK) : Z * WT_RWLOCK :=
  let new := old in
  if negb (readers old =? next old) then (EBUSY, l)
  else
    let new := set_next new (next old + 1) in
    let new := set_readers new (next new) in
    let (ok, l') := __wt_atomic_cas64 l old new in
    (if ok then 0 else EBUSY, l').

Definition __wt_try_readlock (l : WT_RWLOCK) : Z * WT_RWLOCK :=
  __wt_try_readlock_from l l.

(** The wait loops.  With a single caller nothing changes the word between
    two tests; [fuel] bounds the number of failed tests, and [None] is a
    caller that is still spinning when the fuel is used up. *)
Fixpoint spin_wait (fuel : nat) (served : WT_RWLOCK -> Z) (ticket : Z)
    (pause_cnt : Z) (l : WT_RWLOCK) : option Z :=
  if negb (ticket =? served l) then
    match fuel with
    | O => None
    | S fuel' => spin_wait fuel' served ticket (int_incr pause_cnt) l
    end
  else Some pause_cnt.

Definition __wt_readlock (fuel : nat) (l : WT_RWLOCK) : option WT_RWLOCK :=
  let (ticket, l) := __wt_atomic_fetch_add16_next l 1 in
  match spin_wait fuel readers ticket 0 l with
  | None => None
  | Some _ => Some (set_readers l (readers l + 1))
  end.

Fixpoint __wt_readlock_spin (fuel : nat) (l : WT_RWLOCK)
  : option WT_RWLOCK :=
  let (ret, l') := __wt_try_readlock l in
  if negb (ret =? 0) then
    match fuel with
    | O => None
    | S fuel' => __wt_readlock_spin fuel' l'
    end
  else Some l'.

Definition __wt_readunlock (l : WT_RWLOCK) : WT_RWLOCK :=
  __wt_atomic_add16_writers l 1.

(** [__wt_try_writelock] from the test on, as for the read lock. *)
Definition __wt_try_writelock_from (old l : WT_RWLOCK) : Z * WT_RWLOCK :=
  let new := old in
  if negb (writers old =? next old) then (EBUSY, l)
  else
    let new := set_next new (next new + 1) in
    let new := set_writers_active new (writers_active new + 1) in
    let (ok, l') := __wt_atomic_cas64 l old new in
    (if ok then 0 else EBUSY, l').

Definition __wt_try_writelock (l : WT_RWLOCK) : Z * WT_RWLOCK :=
  __wt_try_writelock_from l l.

Definition __wt_writelock (fuel : nat) (l : WT_RWLOCK) : option WT_RWLOCK :=
  let (ticket, l) := __wt_atomic_fetch_add16_next l 1 in
  let l := __wt_atomic_add16_writers_active l 1 in
  match spin_wait fuel writers ticket 0 l with
  | None => None
  | Some _ => Some l
  end.

(** The last store of [__wt_writeunlock]: [new] is the private copy
    [new = *l], [l] the word in memory when [l->i.wr = new.i.wr] runs. *)
Definition writeunlock_store (new l : WT_RWLOCK) : WT_RWLOCK :=
  let new := set_writers new (writers new + 1) in
  let new := set_readers new (readers new + 1) in
  set_i_wr l (i_wr new).

Definition __wt_writeunlock (l : WT_RWLOCK) : WT_RWLOCK :=
  let l := __wt_atomic_sub16_writers_active l 1 in
  let new := l in
  writeunlock_store new l.

Definition __wt_rwlock_islocked (l : WT_RWLOCK) : bool :=
  negb (writers l =? next l) || negb (readers l =? next l).

(** ** Threads

    The interleaving model.  A thread is between two calls ([Idle]), holds
    the lock ([HoldR], [HoldW]) or is inside one of the functions, at a point
    between two accesses to the shared word.  Every step of a thread performs
    one access of the source: an atomic primitive, the load of a snapshot,
    one test of a wait loop, or one plain load or store.  Accesses are
    sequentially consistent, and an aligned load or store of the word or of
    one of its views is a single access.

    A caller follows the contract of the lock: it releases only what it
    holds, and holds at most one lock at a time. *)

Inductive call : Type :=
| TRY_READLOCK
| READLOCK_SPIN
| READLOCK
| TRY_WRITELOCK
| WRITELOCK.

Inductive pc : Type :=
| Idle
  (* __wt_try_readlock, after [new = old = *l] *)
| TryR_cas (old : WT_RWLOCK)
  (* __wt_readlock_spin: in the loop test, after the snapshot of the try *)
| Spin_cas (old : WT_RWLOCK)
  (* __wt_readlock_spin: in the loop body, before the test of
     [l->s.writers_active] *)
| Spin_back
  (* __wt_readlock_spin: before the snapshot of the next try *)
| Spin_try
  (* __wt_readlock: before a test [ticket != l->s.readers] *)
| R_wait (ticket : Z) (pause_cnt : Z)
  (* __wt_readlock, [++l->s.readers]: before the load *)
| R_load (ticket : Z)
  (* __wt_readlock, [++l->s.readers]: loaded [v], before the store *)
| R_store (ticket : Z) (v : Z)
| HoldR
  (* __wt_try_writelock, after [old = new = *l] *)
| TryW_cas (old : WT_RWLOCK)
  (* __wt_writelock: before the add to [writers_active] *)
| W_add (ticket : Z)
  (* __wt_writelock: before a test [ticket != l->s.writers] *)
| W_wait (ticket : Z) (pause_cnt : Z)
  (* the write lock is held; [ticket] records the ticket it was granted
     with and is not used by any step *)
| HoldW (ticket : Z)
  (* __wt_writeunlock: after the subtraction, before [new = *l] *)
| W_unl_load (ticket : Z)
  (* __wt_writeunlock: before [l->i.wr = new.i.wr] *)
| W_unl_store (ticket : Z) (new : WT_RWLOCK).

(** The shared word, the threads, and three history counters: the number of
    tickets handed out and the number of increments of [readers] and of
    [writers] so far, without wrap.  No step reads the counters. *)
Record sys : Type := mkSys {
  lock : WT_RWLOCK;
  thr : list pc;
  g_next : Z;
  g_readers : Z;
  g_writers : Z
}.

Fixpoint upd (i : nat) (p : pc) (ps : list pc) : list pc :=
  match ps, i with
  | [], _ => []
  | _ :: ps', O => p :: ps'
  | q :: ps', S i' => q :: upd i' p ps'
  end.

(** Thread [i] moves to [p], the word becomes [l], and the history counters
    grow by [dn], [dr], [dw]. *)
Definition move (s : sys) (i : nat) (p : pc) (l : WT_RWLOCK) (dn dr dw : Z)
  : sys :=
  mkSys l (upd i p (thr s)) (g_next s + dn) (g_readers s + dr)
    (g_writers s + dw).

(** The step of a thread at [p], over the word [l]: the new program counter,
    the new word, and the increments of the history counters.  [c] is the
    function an idle thread calls. *)
Definition step_pc (c : call) (p : pc) (l : WT_RWLOCK)
  : pc * WT_RWLOCK * (Z * Z * Z) :=
  match p with
  | Idle =>
      match c with
      | TRY_READLOCK => (TryR_cas l, l, (0, 0, 0))
      | READLOCK_SPIN => (Spin_cas l, l, (0, 0, 0))
      | READLOCK =>
          let (ticket, l') := __wt_atomic_fetch_add16_next l 1 in
          (R_wait ticket 0, l', (1, 0, 0))
      | TRY_WRITELOCK => (TryW_cas l, l, (0, 0, 0))
      | WRITELOCK =>
          let (ticket, l') := __wt_atomic_fetch_add16_next l 1 in
          (W_add ticket, l', (1, 0, 0))
      end
  | TryR_cas old =>
      let (ret, l') := __wt_try_readlock_from old l in
      if ret =? 0 then (HoldR, l', (1, 1, 0)) else (Idle, l', (0, 0, 0))
  | Spin_cas old =>
      let (ret, l') := __wt_try_readlock_from old l in
      if ret =? 0 then (HoldR, l', (1, 1, 0)) else (Spin_back, l', (0, 0, 0))
  | Spin_back =>
      (* [__wt_yield] if [l->s.writers_active > 0], [WT_PAUSE] otherwise *)
      (Spin_try, l, (0, 0, 0))
  | Spin_try => (Spin_cas l, l, (0, 0, 0))
  | R_wait ticket pause_cnt =>
      if negb (ticket =? readers l)
      then (R_wait ticket (int_incr pause_cnt), l, (0, 0, 0))
      else (R_load ticket, l, (0, 0, 0))
  | R_load ticket => (R_store ticket (readers l), l, (0, 0, 0))
  | R_store ticket v => (HoldR, set_readers l (v + 1), (0, 1, 0))
  | HoldR => (Idle, __wt_readunlock l, (0, 0, 1))
  | TryW_cas old =>
      let (ret, l') := __wt_try_writelock_from old l in
      if ret =? 0 then (HoldW (next old), l', (1, 0, 0))
      else (Idle, l', (0, 0, 0))
  | W_add ticket =>
      (W_wait ticket 0, __wt_atomic_add16_writers_active l 1, (0, 0, 0))
  | W_wait ticket pause_cnt =>
      if negb (ticket =? writers l)
      then (W_wait ticket (int_incr pause_cnt), l, (0, 0, 0))
      else (HoldW ticket, l, (0, 0, 0))
  | HoldW ticket =>
      (W_unl_load ticket, __wt_atomic_sub16_writers_active l 1, (0, 0, 0))
  | W_unl_load ticket => (W_unl_store ticket l, l, (0, 0, 0))
  | W_unl_store ticket new => (Idle, writeunlock_store new l, (0, 1, 1))
  end.

(** One step of thread [i]; a thread that does not exist does nothing. *)
Definition step (e : nat * call) (s : sys) : sys :=
  let (i, c) := e in
  match nth_error (thr s) i with
  | None => s
  | Some p =>
      match step_pc c p (lock s) with
      | (p', l', (dn, dr, dw)) => move s i p' l' dn dr dw
      end
  end.

(** A schedule names, step after step, the thread that runs. *)
Definition run (sched : list (nat * call)) (s : sys) : sys :=
  fold_left (fun s e => step e s) sched s.

Definition init (n : nat) : sys :=
  mkSys __wt_rwlock_init (repeat Idle n) 0 0 0.

(** A thread holds the read lock from the test that grants it its ticket
    until [__wt_readunlock]. *)
Definition holds_read (p : pc) : bool :=
  match p with
  | R_load _ | R_store _ _ | HoldR => true
  | _ => false
  end.

(** A thread holds the write lock until the last store of
    [__wt_writeunlock]. *)
Definition holds_write (p : pc) : bool :=
  match p with
  | HoldW _ | W_unl_load _ | W_unl_store _ _ => true
  | _ => false
  end.

(** ** The invariant of the interleaving model *)

(** The ticket of a thread that [readers] has not passed yet: a thread
    waiting for its turn, a reader between its grant and its increment of
    [readers], or a writer up to its release. *)
Definition qticket (p : pc) : option Z :=
  match p with
  | R_wait t _ | R_load t | R_store t _
  | W_add t | W_wait t _ | HoldW t | W_unl_load t | W_unl_store t _ => Some t
  | _ => None
  end.

Definition is_queued (p : pc) : bool :=
  match qticket p with Some _ => true | None => false end.

Definition is_holdr (p : pc) : bool :=
  match p with HoldR => true | _ => false end.

(** A thread that owns a ticket: from the step that takes it to the end of
    the matching release. *)
Definition has_ticket (p : pc) : bool := is_queued p || is_holdr p.

Fixpoint count (f : pc -> bool) (ps : list pc) : Z :=
  match ps with
  | [] => 0
  | p :: ps' => Z.b2z (f p) + count f ps'
  end.

(** What a thread at [p] knows about the word [l]. *)
Definition pc_ok (l : WT_RWLOCK) (p : pc) : Prop :=
  match p with
  | R_load t => t = readers l
  | R_store t v => t = readers l /\ v = readers l
  | HoldW t | W_unl_load t => t = readers l /\ t = writers l
  | W_unl_store t new =>
      t = readers l /\ t = writers l /\
      readers new = readers l /\ writers new = writers l
  | _ => True
  end.

Record inv (s : sys) : Prop := mkInv {
  inv_threads : Z.of_nat (length (thr s)) <= 65536;
  inv_writers : writers (lock s) = g_writers s mod 65536;
  inv_readers : readers (lock s) = g_readers s mod 65536;
  inv_next : next (lock s) = g_next s mod 65536;
  inv_holdr : g_readers s - g_writers s = count is_holdr (thr s);
  inv_queued : g_next s - g_readers s = count is_queued (thr s);
  inv_pos : forall i p t,
    nth_error (thr s) i = Some p -> qticket p = Some t ->
    0 <= t < 65536 /\
    (t - readers (lock s)) mod 65536 < count is_queued (thr s);
  inv_distinct : forall i j p q t,
    nth_error (thr s) i = Some p -> nth_error (thr s) j = Some q ->
    qticket p = Some t -> qticket q = Some t -> i = j;
  inv_local : forall i p,
    nth_error (thr s) i = Some p -> pc_ok (lock s) p
}.

(** ** Single-caller scenarios *)

(** The lock is idle: no ticket is outstanding and no writer is counted. *)
Definition idle (l : WT_RWLOCK) : Prop :=
  writers l = readers l /\ readers l = next l /\ writers_active l = 0.

(** [n] rounds of an acquisition followed by [__wt_writeunlock]; [None] as
    soon as an acquisition does not succeed. *)
Fixpoint write_cycles (acquire : WT_RWLOCK -> option WT_RWLOCK) (n : nat)
    (l : WT_RWLOCK) : option WT_RWLOCK :=
  match n with
  | O => Some l
  | S n' =>
      match acquire l with
      | None => None
      | Some l1 => write_cycles acquire n' (__wt_writeunlock l1)
      end
  end.

(** [__wt_try_writelock], as an acquisition that succeeds or not. *)
Definition acquire_try (l : WT_RWLOCK) : option WT_RWLOCK :=
  let (ret, l') := __wt_try_writelock l in
  if ret =? 0 then Some l' else None.

(** [__wt_writelock] with no fuel: it returns only when the first test of
    its loop finds the ticket served. *)
Definition acquire_now (l : WT_RWLOCK) : option WT_RWLOCK :=
  __wt_writelock O l.

(** The history counters count the threads between the matching events: a
    reader between its increment of [readers] and its release, and a thread
    between its ticket and the increment of [readers] that passes it. *)
Definition counted (s : sys) : Prop :=
  g_readers s - g_writers s = count is_holdr (thr s) /\
  g_next s - g_readers s = count is_queued (thr s).

(** Mutual exclusion, as a property of a state: a thread that holds the
    write lock is the only holder. *)
Definition exclusive (s : sys) : Prop :=
  forall i j p q,
    i <> j ->
    nth_error (thr s) i = Some p -> nth_error (thr s) j = Some q ->
    holds_write p = true ->
    holds_read q = false /\ holds_write q = false.

(** A call has returned with the lock, and the matching release has not
    completed. *)
Definition acquired (p : pc) : bool := is_holdr p || holds_write p.

(** A step that takes a thread from outside [hold] into [hold]: the
    acquisition completes. *)
Definition completes (hold : pc -> bool) (p p' : pc) : bool :=
  negb (hold p) && hold p'.

(** ** Ticket wrap *)

(** The number of tickets after which [next] is back at its value. *)
Definition WRAP : nat := Z.to_nat 65536.

(** The threads [0 .. k-1] take the read lock by [__wt_try_readlock], one
    after the other, and keep it. *)
Definition try_read_all (k : nat) : list (nat * call) :=
  flat_map (fun i => [(i, TRY_READLOCK); (i, TRY_READLOCK)]) (seq 0 k).

(** 65536 readers take the lock, then one more thread calls
    [__wt_try_writelock]. *)
Definition wrap_sched : list (nat * call) :=
  try_read_all WRAP ++ [(WRAP, TRY_WRITELOCK); (WRAP, TRY_WRITELOCK)].

(** ** The worked example of the file's header comment *)

(** The four steps of [__wt_readlock] when the ticket is served at once:
    ticket, test, load and store of [readers]. *)
Definition acquire_read (i : nat) : list (nat * call) :=
  repeat (i, READLOCK) 4.

(** The first two steps of [__wt_writelock]: ticket, and the add to
    [writers_active]. *)
Definition request_write (i : nat) : list (nat * call) :=
  repeat (i, WRITELOCK) 2.

(** [k] tests of the wait loop of [__wt_writelock]. *)
Definition test_write (i : nat) (k : nat) : list (nat * call) :=
  repeat (i, WRITELOCK) k.

(** The step of a reader that holds the lock is [__wt_readunlock]. *)
Definition release_read (i : nat) : list (nat * call) :=
  [(i, READLOCK)].

(** Threads 0, 1, 2 take the read lock; thread 3 asks for the write lock
    and tests [k0] times. *)
Definition example_request (k0 : nat) : list (nat * call) :=
  acquire_read 0 ++ acquire_read 1 ++ acquire_read 2
  ++ request_write 3 ++ test_write 3 k0.

(** ... the reader with ticket 2 releases ... *)
Definition example_release2 (k0 k1 : nat) : list (nat * call) :=
  example_request k0 ++ release_read 2 ++ test_write 3 k1.

(** ... then the reader with ticket 0 ... *)
Definition example_release0 (k0 k1 k2 : nat) : list (nat * call) :=
  example_release2 k0 k1 ++ release_read 0 ++ test_write 3 k2.

(** ... then the reader with ticket 1. *)
Definition example_release1 (k0 k1 k2 : nat) : list (nat * call) :=
  example_release0 k0 k1 k2 ++ release_read 1.

(** The next test of the writer. *)
Definition example_grant (k0 k1 k2 : nat) : list (nat * call) :=
  example_release1 k0 k1 k2 ++ test_write 3 1.

(** ** The diagnostic *)

(** [__wt_rwlock_islocked] is true exactly when a call has returned with
    the lock and the matching release has not completed. *)
Definition islocked_iff_acquired (s : sys) : Prop :=
  __wt_rwlock_islocked (lock s) = true <->
  exists i p, nth_error (thr s) i = Some p /\ acquired p = true.

(** A writer takes and releases the lock while a reader has taken its
    ticket and has not tested it yet. *)
Definition handover_sched : list (nat * call) :=
  [(0, TRY_WRITELOCK); (0, TRY_WRITELOCK); (1, READLOCK);
   (0, TRY_WRITELOCK); (0, TRY_WRITELOCK); (0, TRY_WRITELOCK)]%nat.

(** ** One thread alone *)

(** A lock used by a single thread, at [p]. *)
Definition solo (l : WT_RWLOCK) (p : pc) : sys := mkSys l [p] 0 0 0.

(** [k] steps of that thread. *)
Definition solo_run (k : nat) (c : call) (s : sys) : sys :=
  run (repeat (O, c) k) s.

(** ** Threads, seen from outside *)

(** A writer counted in [writers_active]: from its add (or its successful
    try) to the subtraction of [__wt_writeunlock]. *)
Definition is_wactive (p : pc) : bool :=
  match p with
  | W_wait _ _ | HoldW _ => true
  | _ => false
  end.

(** A thread whose ticket has been served and not passed yet: a reader
    between its test and its increment of [readers], or a writer that holds
    the lock. *)
Definition granted (p : pc) : bool :=
  match p with
  | R_load _ | R_store _ _ | HoldW _ | W_unl_load _ | W_unl_store _ _ => true
  | _ => false
  end.

(** The next step of the thread is a test of a wait loop that fails. *)
Definition stuck (l : WT_RWLOCK) (p : pc) : bool :=
  match p with
  | R_wait t _ => negb (t =? readers l)
  | W_wait t _ => negb (t =? writers l)
  | _ => false
  end.

(** The tickets [readers] has not passed, thread after thread. *)
Fixpoint tickets (ps : list pc) : list Z :=
  match ps with
  | [] => []
  | p :: ps' =>
      match qticket p with
      | Some t => t :: tickets ps'
      | None => tickets ps'
      end
  end.

(** The two steps of a try, not interrupted. *)
Definition try_read_steps (i : nat) : list (nat * call) :=
  [(i, TRY_READLOCK); (i, TRY_READLOCK)].

Definition try_write_steps (i : nat) : list (nat * call) :=
  [(i, TRY_WRITELOCK); (i, TRY_WRITELOCK)].

(** A thread inside the loop of [__wt_readlock_spin]. *)
Definition is_spin (p : pc) : bool :=
  match p with
  | Spin_cas _ | Spin_back | Spin_try => true
  | _ => false
  end.

(** * Properties *)

(** ** Facts on the lock word *)

Ltac word_unfold :=
  unfold wf, pack, set_i_wr, i_wr, set_writers, set_readers, set_next,
    set_writers_active, writers, readers, next, writers_active, u16,
    B16, B32, B48, B64 in *.

Ltac word_solve := intros; word_unfold; lia.

Section WordFacts.

Variable l : WT_RWLOCK.

Lemma writers_range : 0 <= writers l < 65536.
Proof. word_solve. Qed.

Lemma readers_range : 0 <= readers l < 65536.
Proof. word_solve. Qed.

Lemma next_range : 0 <= next l < 65536.
Proof. word_solve. Qed.

Lemma writers_active_range : 0 <= writers_active l < 65536.
Proof. word_solve. Qed.

Lemma pack_fields :
  wf l -> l = pack (writers l) (readers l) (next l) (writers_active l).
Proof. word_solve. Qed.

Variable v : Z.

Lemma writers_set_writers : writers (set_writers l v) = u16 v.
Proof. word_solve. Qed.
Lemma readers_set_writers : readers (set_writers l v) = readers l.
Proof. word_solve. Qed.
Lemma next_set_writers : next (set_writers l v) = next l.
Proof. word_solve. Qed.
Lemma writers_active_set_writers :
  writers_active (set_writers l v) = writers_active l.
Proof. word_solve. Qed.

Lemma writers_set_readers : writers (set_readers l v) = writers l.
Proof. word_solve. Qed.
Lemma readers_set_readers : readers (set_readers l v) = u16 v.
Proof. word_solve. Qed.
Lemma next_set_readers : next (set_readers l v) = next l.
Proof. word_solve. Qed.
Lemma writers_active_set_readers :
  writers_active (set_readers l v) = writers_active l.
Proof. word_solve. Qed.

Lemma writers_set_next : writers (set_next l v) = writers l.
Proof. word_solve. Qed.
Lemma readers_set_next : readers (set_next l v) = readers l.
Proof. word_solve. Qed.
Lemma next_set_next : next (set_next l v) = u16 v.
Proof. word_solve. Qed.
Lemma writers_active_set_next :
  writers_active (set_next l v) = writers_active l.
Proof. word_solve. Qed.

Lemma writers_set_writers_active :
  writers (set_writers_active l v) = writers l.
Proof. word_solve. Qed.
Lemma readers_set_writers_active :
  readers (set_writers_active l v) = readers l.
Proof. word_solve. Qed.
Lemma next_set_writers_active : next (set_writers_active l v) = next l.
Proof. word_solve. Qed.
Lemma writers_active_set_writers_active :
  writers_active (set_writers_active l v) = u16 v.
Proof. word_solve. Qed.

Lemma wf_set_writers : wf l -> wf (set_writers l v).
Proof. word_solve. Qed.
Lemma wf_set_readers : wf l -> wf (set_readers l v).
Proof. word_solve. Qed.
Lemma wf_set_next : wf l -> wf (set_next l v).
Proof. word_solve. Qed.
Lemma wf_set_writers_active : wf l -> wf (set_writers_active l v).
Proof. word_solve. Qed.
Lemma wf_set_i_wr : wf l -> wf (set_i_wr l v).
Proof. word_solve. Qed.

End WordFacts.

Section WordHalfStore.

Variables l m : WT_RWLOCK.

Lemma writers_set_i_wr : writers (set_i_wr l (i_wr m)) = writers m.
Proof. word_solve. Qed.
Lemma readers_set_i_wr : readers (set_i_wr l (i_wr m)) = readers m.
Proof. word_solve. Qed.
Lemma next_set_i_wr : next (set_i_wr l (i_wr m)) = next l.
Proof. word_solve. Qed.
Lemma writers_active_set_i_wr :
  writers_active (set_i_wr l (i_wr m)) = writers_active l.
Proof. word_solve. Qed.

End WordHalfStore.

Create Rewrite HintDb word.

#[export] Hint Rewrite
  writers_set_writers readers_set_writers next_set_writers
  writers_active_set_writers
  writers_set_readers readers_set_readers next_set_readers
  writers_active_set_readers
  writers_set_next readers_set_next next_set_next writers_active_set_next
  writers_set_writers_active readers_set_writers_active
  next_set_writers_active writers_active_set_writers_active
  writers_set_i_wr readers_set_i_wr next_set_i_wr writers_active_set_i_wr
  : word.


(** ** Facts on the thread pool *)

Section Pool.

Variable f : pc -> bool.

Lemma length_upd (i : nat) (q : pc) (ps : list pc) :
  length (upd i q ps) = length ps.
Proof.
  revert i; induction ps as [|a ps IH]; intros [|i]; simpl; auto.
Qed.

Lemma nth_error_upd_same (i : nat) (q p : pc) (ps : list pc) :
  nth_error ps i = Some p -> nth_error (upd i q ps) i = Some q.
Proof.
  revert i; induction ps as [|a ps IH]; intros [|i]; simpl;
    try discriminate; auto.
Qed.

Lemma nth_error_upd_other (i j : nat) (q : pc) (ps : list pc) :
  j <> i -> nth_error (upd i q ps) j = nth_error ps j.
Proof.
  revert i j; induction ps as [|a ps IH]; intros [|i] [|j] Hij; simpl;
    auto; try congruence.
Qed.

Lemma nth_error_upd_inv (i j : nat) (q p x : pc) (ps : list pc) :
  nth_error ps i = Some p ->
  nth_error (upd i q ps) j = Some x ->
  (j = i /\ x = q) \/ (j <> i /\ nth_error ps j = Some x).
Proof.
  intros Hi Hj. destruct (Nat.eq_dec j i) as [->|Hne].
  - rewrite (nth_error_upd_same _ _ _ _ Hi) in Hj. left; split; congruence.
  - rewrite nth_error_upd_other in Hj by assumption. right; auto.
Qed.

Lemma count_range (ps : list pc) :
  0 <= count f ps <= Z.of_nat (length ps).
Proof.
  induction ps as [|a ps IH]; simpl length; simpl count.
  - lia.
  - destruct (f a); simpl Z.b2z; lia.
Qed.

Lemma count_upd (i : nat) (p q : pc) (ps : list pc) :
  nth_error ps i = Some p ->
  count f (upd i q ps) = count f ps - Z.b2z (f p) + Z.b2z (f q).
Proof.
  revert i; induction ps as [|a ps IH]; intros [|i] Hi; simpl in *;
    try discriminate.
  - injection Hi as ->. lia.
  - rewrite (IH _ Hi). lia.
Qed.

Lemma count_mem (i : nat) (p : pc) (ps : list pc) :
  nth_error ps i = Some p -> f p = true -> 1 <= count f ps.
Proof.
  revert i; induction ps as [|a ps IH]; intros [|i] Hi Hp; simpl in *;
    try discriminate.
  - injection Hi as ->. rewrite Hp. pose proof (count_range ps).
    cbn [Z.b2z]; lia.
  - specialize (IH _ Hi Hp). destruct (f a); cbn [Z.b2z]; lia.
Qed.

Lemma count_zero (i : nat) (p : pc) (ps : list pc) :
  count f ps = 0 -> nth_error ps i = Some p -> f p = false.
Proof.
  intros H0 Hi. destruct (f p) eqn:E; auto.
  pose proof (count_mem _ _ _ Hi E). lia.
Qed.

Lemma count_ex (ps : list pc) :
  1 <= count f ps -> exists i p, nth_error ps i = Some p /\ f p = true.
Proof.
  induction ps as [|a ps IH]; simpl; intros H.
  - lia.
  - destruct (f a) eqn:E.
    + exists O, a. auto.
    + cbn [Z.b2z] in H. destruct IH as (i & p & Hi & Hp); [lia|].
      exists (S i), p. auto.
Qed.

Lemma count_repeat (p : pc) (n : nat) :
  f p = false -> count f (repeat p n) = 0.
Proof.
  intros Hp. induction n as [|n IH]; simpl; auto. rewrite Hp, IH. reflexivity.
Qed.

End Pool.

Lemma count_classes (ps : list pc) :
  count is_queued ps + count is_holdr ps = count has_ticket ps.
Proof.
  induction ps as [|a ps IH]; [reflexivity|].
  cbn [count]. rewrite <- IH.
  destruct a; cbn [has_ticket is_queued qticket is_holdr orb Z.b2z]; lia.
Qed.

Lemma count_classes_le (ps : list pc) :
  count is_queued ps + count is_holdr ps <= Z.of_nat (length ps).
Proof.
  rewrite count_classes. apply count_range.
Qed.

(** An idle thread leaves room for one more ticket. *)
Lemma count_classes_lt (i : nat) (p : pc) (ps : list pc) :
  nth_error ps i = Some p -> has_ticket p = false ->
  count is_queued ps + count is_holdr ps < Z.of_nat (length ps).
Proof.
  rewrite count_classes.
  revert i; induction ps as [|a ps IH]; intros [|i] Hi Hp;
    cbn [nth_error] in Hi; try discriminate; cbn [count length].
  - injection Hi as ->. rewrite Hp.
    pose proof (count_range has_ticket ps). cbn [Z.b2z]; lia.
  - specialize (IH _ Hi Hp). destruct (has_ticket a); cbn [Z.b2z]; lia.
Qed.

(** ** The invariant is kept by every step *)

Arguments writers : simpl never.
Arguments readers : simpl never.
Arguments next : simpl never.
Arguments writers_active : simpl never.
Arguments set_writers : simpl never.
Arguments set_readers : simpl never.
Arguments set_next : simpl never.
Arguments set_writers_active : simpl never.
Arguments set_i_wr : simpl never.
Arguments i_wr : simpl never.
Arguments u16 : simpl never.
Arguments count : simpl never.
Arguments upd : simpl never.

Lemma pc_ok_ext (l l' : WT_RWLOCK) (p : pc) :
  writers l' = writers l -> readers l' = readers l ->
  pc_ok l p -> pc_ok l' p.
Proof.
  intros Hw Hr. destruct p; simpl; rewrite ?Hw, ?Hr; auto.
Qed.

Lemma is_queued_ticket (p : pc) (t : Z) :
  qticket p = Some t -> is_queued p = true.
Proof. unfold is_queued. intros ->. reflexivity. Qed.

Lemma is_queued_eq (p p' : pc) :
  qticket p' = qticket p -> is_queued p' = is_queued p.
Proof. unfold is_queued. intros ->. reflexivity. Qed.

Section Preservation.

Variables (s : sys) (i : nat) (p : pc).
Hypothesis Hinv : inv s.
Hypothesis Hi : nth_error (thr s) i = Some p.

(** A step that keeps the three ticket counters of the word, and the
    ticket of the thread. *)
Lemma inv_move_same (p' : pc) (l' : WT_RWLOCK) :
  writers l' = writers (lock s) ->
  readers l' = readers (lock s) ->
  next l' = next (lock s) ->
  qticket p' = qticket p ->
  is_holdr p' = is_holdr p ->
  pc_ok l' p' ->
  inv (move s i p' l' 0 0 0).
Proof.
  intros Hw Hr Hn Hq Hh Hok.
  destruct Hinv as [Ht Iw Ir In Ih Iq Ipos Idis Iloc].
  assert (Cq : count is_queued (upd i p' (thr s)) = count is_queued (thr s)).
  { rewrite (count_upd _ _ _ _ _ Hi), (is_queued_eq _ _ Hq). lia. }
  assert (Ch : count is_holdr (upd i p' (thr s)) = count is_holdr (thr s)).
  { rewrite (count_upd _ _ _ _ _ Hi), Hh. lia. }
  constructor; unfold move; cbn [lock thr g_next g_readers g_writers];
    rewrite ?length_upd, ?Z.add_0_r, ?Cq, ?Ch, ?Hw, ?Hr, ?Hn; auto.
  - intros j x t Hj Hx.
    destruct (nth_error_upd_inv _ _ _ _ _ _ Hi Hj) as [[-> ->]|[Hne Hj']].
    + rewrite Hq in Hx. eapply Ipos; eauto.
    + eapply Ipos; eauto.
  - intros j k x y t Hj Hk Hx Hy.
    destruct (nth_error_upd_inv _ _ _ _ _ _ Hi Hj) as [[-> ->]|[Hne Hj']];
      destruct (nth_error_upd_inv _ _ _ _ _ _ Hi Hk) as [[-> ->]|[Hne' Hk']];
      auto; rewrite ?Hq in *; eauto.
  - intros j x Hj.
    destruct (nth_error_upd_inv _ _ _ _ _ _ Hi Hj) as [[-> ->]|[Hne Hj']];
      auto.
    eapply pc_ok_ext; eauto.
Qed.

(** A thread without a ticket takes the next one. *)
Lemma inv_move_ticket (p' : pc) (l' : WT_RWLOCK) :
  has_ticket p = false ->
  writers l' = writers (lock s) ->
  readers l' = readers (lock s) ->
  next l' = u16 (next (lock s) + 1) ->
  qticket p' = Some (next (lock s)) ->
  pc_ok l' p' ->
  inv (move s i p' l' 1 0 0).
Proof.
  intros Hp Hw Hr Hn Hq Hok.
  destruct Hinv as [Ht Iw Ir In Ih Iq Ipos Idis Iloc].
  pose proof (count_classes_lt _ _ _ Hi Hp) as Hlt.
  pose proof (count_range is_queued (thr s)) as Rq.
  pose proof (count_range is_holdr (thr s)) as Rh.
  apply orb_false_elim in Hp as [Hpq Hph].
  assert (Cq : count is_queued (upd i p' (thr s))
               = count is_queued (thr s) + 1).
  { rewrite (count_upd _ _ _ _ _ Hi), Hpq, (is_queued_ticket _ _ Hq).
    cbn [Z.b2z is_queued qticket is_holdr]; lia. }
  assert (Ch : count is_holdr (upd i p' (thr s)) = count is_holdr (thr s)).
  { rewrite (count_upd _ _ _ _ _ Hi), Hph.
    destruct p'; try discriminate; cbn [is_holdr Z.b2z]; lia. }
  assert (Hnew : (next (lock s) - readers (lock s)) mod 65536
                 = count is_queued (thr s)).
  { rewrite In, Ir. lia. }
  pose proof (next_range (lock s)) as Rn.
  constructor; unfold move; cbn [lock thr g_next g_readers g_writers];
    rewrite ?length_upd, ?Z.add_0_r, ?Cq, ?Ch, ?Hw, ?Hr, ?Hn; auto.
  - rewrite In. unfold u16, B16. lia.
  - lia.
  - intros j x t Hj Hx.
    destruct (nth_error_upd_inv _ _ _ _ _ _ Hi Hj) as [[-> ->]|[Hne Hj']].
    + rewrite Hq in Hx. injection Hx as <-. lia.
    + specialize (Ipos _ _ _ Hj' Hx). lia.
  - intros j k x y t Hj Hk Hx Hy.
    destruct (nth_error_upd_inv _ _ _ _ _ _ Hi Hj) as [[-> ->]|[Hne Hj']];
      destruct (nth_error_upd_inv _ _ _ _ _ _ Hi Hk) as [[-> ->]|[Hne' Hk']];
      auto.
    + rewrite Hq in Hx. injection Hx as <-.
      specialize (Ipos _ _ _ Hk' Hy). lia.
    + rewrite Hq in Hy. injection Hy as <-.
      specialize (Ipos _ _ _ Hj' Hx). lia.
    + eauto.
  - intros j x Hj.
    destruct (nth_error_upd_inv _ _ _ _ _ _ Hi Hj) as [[-> ->]|[Hne Hj']];
      auto.
    eapply pc_ok_ext; eauto.
Qed.

(** A successful compare-and-swap of [__wt_try_readlock]. *)
Lemma inv_move_tryread (l' : WT_RWLOCK) :
  has_ticket p = false ->
  readers (lock s) = next (lock s) ->
  writers l' = writers (lock s) ->
  readers l' = u16 (next (lock s) + 1) ->
  next l' = u16 (next (lock s) + 1) ->
  inv (move s i HoldR l' 1 1 0).
Proof.
  intros Hp Hfree Hw Hr Hn.
  destruct Hinv as [Ht Iw Ir In Ih Iq Ipos Idis Iloc].
  pose proof (count_classes_lt _ _ _ Hi Hp) as Hlt.
  pose proof (count_range is_queued (thr s)) as Rq.
  pose proof (count_range is_holdr (thr s)) as Rh.
  apply orb_false_elim in Hp as [Hpq Hph].
  assert (Q0 : count is_queued (thr s) = 0).
  { rewrite In, Ir in Hfree. lia. }
  assert (Cq : count is_queued (upd i HoldR (thr s)) = 0).
  { rewrite (count_upd _ _ _ _ _ Hi), Hpq. cbn [Z.b2z is_queued qticket is_holdr]; lia. }
  assert (Ch : count is_holdr (upd i HoldR (thr s))
               = count is_holdr (thr s) + 1).
  { rewrite (count_upd _ _ _ _ _ Hi), Hph. cbn [Z.b2z is_queued qticket is_holdr]; lia. }
  assert (Hnone : forall j x t,
             nth_error (upd i HoldR (thr s)) j = Some x ->
             qticket x = Some t -> False).
  { intros j x t Hj Hx.
    pose proof (count_mem _ _ _ _ Hj (is_queued_ticket _ _ Hx)). lia. }
  constructor; unfold move; cbn [lock thr g_next g_readers g_writers];
    rewrite ?length_upd, ?Z.add_0_r, ?Cq, ?Ch, ?Hw, ?Hr, ?Hn; auto.
  - rewrite In. unfold u16, B16. lia.
  - rewrite In. unfold u16, B16. lia.
  - lia.
  - lia.
  - intros j x t Hj Hx. exfalso; eauto.
  - intros j k x y t Hj Hk Hx Hy. exfalso; eauto.
  - intros j x Hj.
    destruct x; cbn [pc_ok]; auto; exfalso; eapply Hnone; eauto;
      reflexivity.
Qed.

(** [readers] passes the ticket of the thread: the increment of a granted
    reader ([dw = 0]) or the last store of a writer ([dw = 1]). *)
Lemma inv_move_pass (p' : pc) (l' : WT_RWLOCK) (t dw : Z) :
  qticket p = Some t ->
  t = readers (lock s) ->
  qticket p' = None ->
  dw = 0 \/ dw = 1 ->
  Z.b2z (is_holdr p') = 1 - dw ->
  writers l' = u16 (writers (lock s) + dw) ->
  readers l' = u16 (readers (lock s) + 1) ->
  next l' = next (lock s) ->
  inv (move s i p' l' 0 1 dw).
Proof.
  intros Hq Ht0 Hq' Hdw Hh' Hw Hr Hn.
  destruct Hinv as [Ht Iw Ir In Ih Iq Ipos Idis Iloc].
  pose proof (count_classes_le (thr s)) as Hle.
  pose proof (count_range is_queued (thr s)) as Rq.
  pose proof (count_range is_holdr (thr s)) as Rh.
  pose proof (count_mem _ _ _ _ Hi (is_queued_ticket _ _ Hq)) as Q1.
  assert (Hph : is_holdr p = false).
  { destruct p; try discriminate; reflexivity. }
  assert (Cq : count is_queued (upd i p' (thr s))
               = count is_queued (thr s) - 1).
  { rewrite (count_upd _ _ _ _ _ Hi), (is_queued_ticket _ _ Hq).
    unfold is_queued; rewrite Hq'. cbn [Z.b2z is_queued qticket is_holdr]; lia. }
  assert (Ch : count is_holdr (upd i p' (thr s))
               = count is_holdr (thr s) + 1 - dw).
  { rewrite (count_upd _ _ _ _ _ Hi), Hph, Hh'. cbn [Z.b2z is_queued qticket is_holdr]; lia. }
  assert (Hother : forall j x t',
             j <> i -> nth_error (thr s) j = Some x ->
             qticket x = Some t' ->
             0 <= t' < 65536 /\
             1 <= (t' - readers (lock s)) mod 65536
               < count is_queued (thr s)).
  { intros j x t' Hne Hj Hx.
    destruct (Ipos _ _ _ Hj Hx) as [Rt Pt]. split; auto.
    destruct (Ipos _ _ _ Hi Hq) as [Rt0 _].
    assert (t' <> t) by (intros ->; apply Hne; eauto).
    lia. }
  pose proof (readers_range (lock s)) as Rr.
  constructor; unfold move; cbn [lock thr g_next g_readers g_writers];
    rewrite ?length_upd, ?Z.add_0_r, ?Cq, ?Ch, ?Hw, ?Hr, ?Hn; auto.
  - rewrite Iw. unfold u16, B16. lia.
  - rewrite Ir. unfold u16, B16. lia.
  - lia.
  - lia.
  - intros j x t' Hj Hx.
    destruct (nth_error_upd_inv _ _ _ _ _ _ Hi Hj) as [[-> ->]|[Hne Hj']].
    + congruence.
    + specialize (Hother _ _ _ Hne Hj' Hx). unfold u16, B16. lia.
  - intros j k x y t' Hj Hk Hx Hy.
    destruct (nth_error_upd_inv _ _ _ _ _ _ Hi Hj) as [[-> ->]|[Hne Hj']];
      destruct (nth_error_upd_inv _ _ _ _ _ _ Hi Hk) as [[-> ->]|[Hne' Hk']];
      auto; try congruence; eauto.
  - intros j x Hj.
    destruct (nth_error_upd_inv _ _ _ _ _ _ Hi Hj) as [[-> ->]|[Hne Hj']].
    + destruct p'; try discriminate; exact I.
    + specialize (Iloc _ _ Hj').
      destruct x; cbn [pc_ok] in *; auto; exfalso;
        pose proof (Hother j _ _ Hne Hj' eq_refl) as Hpos; lia.
Qed.

(** [__wt_readunlock]. *)
Lemma inv_move_readunlock (p' : pc) (l' : WT_RWLOCK) :
  p = HoldR ->
  has_ticket p' = false ->
  writers l' = u16 (writers (lock s) + 1) ->
  readers l' = readers (lock s) ->
  next l' = next (lock s) ->
  inv (move s i p' l' 0 0 1).
Proof.
  intros Hp Hp' Hw Hr Hn. subst p.
  destruct Hinv as [Ht Iw Ir In Ih Iq Ipos Idis Iloc].
  pose proof (count_classes_le (thr s)) as Hle.
  pose proof (count_range is_queued (thr s)) as Rq.
  pose proof (count_range is_holdr (thr s)) as Rh.
  pose proof (count_mem is_holdr _ _ _ Hi eq_refl) as H1.
  apply orb_false_elim in Hp' as [Hpq Hph].
  assert (Cq : count is_queued (upd i p' (thr s)) = count is_queued (thr s)).
  { rewrite (count_upd _ _ _ _ _ Hi), Hpq. cbn [Z.b2z is_queued qticket is_holdr]; lia. }
  assert (Ch : count is_holdr (upd i p' (thr s))
               = count is_holdr (thr s) - 1).
  { rewrite (count_upd _ _ _ _ _ Hi), Hph. cbn [Z.b2z is_queued qticket is_holdr]; lia. }
  assert (Hq' : qticket p' = None).
  { unfold is_queued in Hpq. destruct (qticket p'); congruence. }
  constructor; unfold move; cbn [lock thr g_next g_readers g_writers];
    rewrite ?length_upd, ?Z.add_0_r, ?Cq, ?Ch, ?Hw, ?Hr, ?Hn; auto.
  - rewrite Iw. unfold u16, B16. lia.
  - lia.
  - intros j x t Hj Hx.
    destruct (nth_error_upd_inv _ _ _ _ _ _ Hi Hj) as [[-> ->]|[Hne Hj']].
    + congruence.
    + eauto.
  - intros j k x y t Hj Hk Hx Hy.
    destruct (nth_error_upd_inv _ _ _ _ _ _ Hi Hj) as [[-> ->]|[Hne Hj']];
      destruct (nth_error_upd_inv _ _ _ _ _ _ Hi Hk) as [[-> ->]|[Hne' Hk']];
      auto; try congruence; eauto.
  - intros j x Hj.
    destruct (nth_error_upd_inv _ _ _ _ _ _ Hi Hj) as [[-> ->]|[Hne Hj']].
    + destruct p'; try discriminate; exact I.
    + specialize (Iloc _ _ Hj').
      destruct x; cbn [pc_ok] in *; rewrite ?Hr; auto; exfalso;
        pose proof (count_mem is_queued _ _ _ Hj' eq_refl); lia.
Qed.

End Preservation.

Lemma try_readlock_from_cases (old l : WT_RWLOCK) :
  (readers old = next old /\ l = old /\
   exists l', __wt_try_readlock_from old l = (0, l') /\
     writers l' = writers old /\ readers l' = u16 (next old + 1) /\
     next l' = u16 (next old + 1) /\
     writers_active l' = writers_active old) \/
  ((readers old <> next old \/ l <> old) /\
   __wt_try_readlock_from old l = (EBUSY, l)).
Proof.
  unfold __wt_try_readlock_from, __wt_atomic_cas64.
  destruct (Z.eqb_spec (readers old) (next old)) as [E|E]; cbn [negb].
  - destruct (Z.eqb_spec l old) as [E'|E'].
    + left. repeat split; auto. eexists; split; [reflexivity|].
      autorewrite with word. unfold u16, B16.
      repeat split; auto; lia.
    + right. auto.
  - right. auto.
Qed.

Lemma try_writelock_from_cases (old l : WT_RWLOCK) :
  (writers old = next old /\ l = old /\
   exists l', __wt_try_writelock_from old l = (0, l') /\
     writers l' = writers old /\ readers l' = readers old /\
     next l' = u16 (next old + 1) /\
     writers_active l' = u16 (writers_active old + 1)) \/
  ((writers old <> next old \/ l <> old) /\
   __wt_try_writelock_from old l = (EBUSY, l)).
Proof.
  unfold __wt_try_writelock_from, __wt_atomic_cas64.
  destruct (Z.eqb_spec (writers old) (next old)) as [E|E]; cbn [negb].
  - destruct (Z.eqb_spec l old) as [E'|E'].
    + left. repeat split; auto. eexists; split; [reflexivity|].
      autorewrite with word. repeat split; auto.
    + right. auto.
  - right. auto.
Qed.

(** A writer whose ticket is served finds [readers] at its ticket too. *)
Lemma inv_served_writer (s : sys) (i : nat) (p : pc) (t : Z) :
  inv s -> nth_error (thr s) i = Some p -> qticket p = Some t ->
  t = writers (lock s) ->
  t = readers (lock s) /\ count is_holdr (thr s) = 0.
Proof.
  intros [Ht Iw Ir In Ih Iq Ipos Idis Iloc] Hi Hq Hw.
  destruct (Ipos _ _ _ Hi Hq) as [Rt Pt].
  pose proof (count_classes_le (thr s)).
  pose proof (count_range is_queued (thr s)).
  pose proof (count_range is_holdr (thr s)).
  pose proof (readers_range (lock s)).
  rewrite Iw in Hw. rewrite Ir in *. lia.
Qed.

(** A thread without a ticket finds the lock free for a writer only if no
    thread owns a ticket. *)
Lemma inv_free (s : sys) (i : nat) (p : pc) :
  inv s -> nth_error (thr s) i = Some p -> has_ticket p = false ->
  writers (lock s) = next (lock s) ->
  readers (lock s) = next (lock s) /\
  count is_queued (thr s) = 0 /\ count is_holdr (thr s) = 0.
Proof.
  intros [Ht Iw Ir In Ih Iq Ipos Idis Iloc] Hi Hp Hw.
  pose proof (count_classes_lt _ _ _ Hi Hp).
  pose proof (count_range is_queued (thr s)).
  pose proof (count_range is_holdr (thr s)).
  rewrite Iw, In in Hw. rewrite Ir, In. lia.
Qed.

Theorem inv_step (e : nat * call) (s : sys) : inv s -> inv (step e s).
Proof.
  intros Hinv. destruct e as [i c]. unfold step.
  destruct (nth_error (thr s) i) as [p|] eqn:Hi; [|assumption].
  pose proof (inv_local _ Hinv _ _ Hi) as Hloc.
  destruct p; cbn [step_pc].
  - (* Idle *)
    destruct c; cbn [__wt_atomic_fetch_add16_next].
    + eapply inv_move_same; eauto; reflexivity.
    + eapply inv_move_same; eauto; reflexivity.
    + eapply inv_move_ticket; eauto; autorewrite with word;
        reflexivity.
    + eapply inv_move_same; eauto; reflexivity.
    + eapply inv_move_ticket; eauto; autorewrite with word;
        reflexivity.
  - (* TryR_cas *)
    destruct (try_readlock_from_cases old (lock s))
      as [(Hf & <- & l' & -> & Hw & Hr & Hn & _)|[_ ->]]; cbn [Z.eqb EBUSY].
    + eapply inv_move_tryread; eauto.
    + eapply inv_move_same; eauto; reflexivity.
  - (* Spin_cas *)
    destruct (try_readlock_from_cases old (lock s))
      as [(Hf & <- & l' & -> & Hw & Hr & Hn & _)|[_ ->]]; cbn [Z.eqb EBUSY].
    + eapply inv_move_tryread; eauto.
    + eapply inv_move_same; eauto; reflexivity.
  - (* Spin_back *)
    eapply inv_move_same; eauto; reflexivity.
  - (* Spin_try *)
    eapply inv_move_same; eauto; reflexivity.
  - (* R_wait *)
    destruct (Z.eqb_spec ticket (readers (lock s))) as [E|E]; cbn [negb].
    + eapply inv_move_same; eauto; reflexivity.
    + eapply inv_move_same; eauto; reflexivity.
  - (* R_load *)
    cbn [pc_ok] in Hloc.
    eapply inv_move_same; eauto; try reflexivity. cbn [pc_ok]; auto.
  - (* R_store *)
    cbn [pc_ok] in Hloc. destruct Hloc as [Ht Hv]. subst v.
    eapply (inv_move_pass _ _ _ Hinv Hi HoldR _ ticket 0); eauto;
      autorewrite with word; try reflexivity.
    unfold u16, B16. pose proof (writers_range (lock s)). lia.
  - (* HoldR *)
    unfold __wt_readunlock, __wt_atomic_add16_writers.
    eapply inv_move_readunlock; eauto; autorewrite with word; reflexivity.
  - (* TryW_cas *)
    destruct (try_writelock_from_cases old (lock s))
      as [(Hf & <- & l' & -> & Hw & Hr & Hn & _)|[_ ->]]; cbn [Z.eqb EBUSY].
    + destruct (inv_free _ _ _ Hinv Hi eq_refl Hf) as (Hrn & _ & _).
      eapply inv_move_ticket; eauto. cbn [pc_ok]. split; congruence.
    + eapply inv_move_same; eauto; reflexivity.
  - (* W_add *)
    unfold __wt_atomic_add16_writers_active.
    eapply inv_move_same; eauto; autorewrite with word; reflexivity.
  - (* W_wait *)
    destruct (Z.eqb_spec ticket (writers (lock s))) as [E|E]; cbn [negb].
    + destruct (inv_served_writer _ _ _ _ Hinv Hi eq_refl E) as [Hr _].
      eapply inv_move_same; eauto; try reflexivity. cbn [pc_ok]; auto.
    + eapply inv_move_same; eauto; reflexivity.
  - (* HoldW *)
    unfold __wt_atomic_sub16_writers_active.
    cbn [pc_ok] in Hloc.
    eapply inv_move_same; eauto; autorewrite with word; try reflexivity.
    cbn [pc_ok]. autorewrite with word. assumption.
  - (* W_unl_load *)
    cbn [pc_ok] in Hloc.
    eapply inv_move_same; eauto; try reflexivity.
    cbn [pc_ok]. tauto.
  - (* W_unl_store *)
    cbn [pc_ok] in Hloc. destruct Hloc as (Hr & Hw & Hnr & Hnw).
    unfold writeunlock_store.
    eapply (inv_move_pass _ _ _ Hinv Hi Idle _ ticket 1); eauto;
      autorewrite with word; try reflexivity.
    + rewrite Hnw. unfold u16, B16. lia.
    + rewrite Hnr. reflexivity.
Qed.

Lemma inv_init (n : nat) : Z.of_nat n <= 65536 -> inv (init n).
Proof.
  intros Hn.
  assert (Hidle : forall i p, nth_error (repeat Idle n) i = Some p -> p = Idle).
  { intros i p Hi. apply nth_error_In in Hi.
    apply repeat_spec in Hi. assumption. }
  constructor; unfold init; cbn [lock thr g_next g_readers g_writers];
    rewrite ?repeat_length, ?count_repeat by reflexivity; auto.
  - intros i p t Hi Hp. apply Hidle in Hi. subst p. discriminate.
  - intros i j p q t Hi _ Hp. apply Hidle in Hi. subst p. discriminate.
  - intros i p Hi. apply Hidle in Hi. subst p. exact I.
Qed.

Lemma length_step (e : nat * call) (s : sys) :
  length (thr (step e s)) = length (thr s).
Proof.
  destruct e as [i c]. unfold step.
  destruct (nth_error (thr s) i) as [p|]; [|reflexivity].
  destruct (step_pc c p (lock s)) as [[p' l'] [[dn dr] dw]].
  apply length_upd.
Qed.

Lemma inv_run (sched : list (nat * call)) (s : sys) :
  inv s -> inv (run sched s).
Proof.
  revert s. induction sched as [|e sched IH]; intros s Hs; cbn; auto.
  apply IH. apply inv_step. assumption.
Qed.

(** The invariant holds with up to 65536 threads. *)
Lemma inv_reachable_le (n : nat) (sched : list (nat * call)) :
  Z.of_nat n <= 65536 -> inv (run sched (init n)).
Proof.
  intros Hn. apply inv_run, inv_init, Hn.
Qed.

Lemma inv_reachable (n : nat) (sched : list (nat * call)) :
  Z.of_nat n < 65536 -> inv (run sched (init n)).
Proof.
  intros Hn. apply inv_reachable_le. lia.
Qed.

Lemma length_run (sched : list (nat * call)) (s : sys) :
  length (thr (run sched s)) = length (thr s).
Proof.
  revert s. induction sched as [|e sched IH]; intros s; cbn; auto.
  change (fold_left _ sched ?x) with (run sched x).
  rewrite IH. apply length_step.
Qed.

Lemma length_reachable (n : nat) (sched : list (nat * call)) :
  length (thr (run sched (init n))) = n.
Proof.
  rewrite length_run. apply repeat_length.
Qed.

(** ** The word stays a 64-bit value *)

Lemma wf_try_readlock_from (old l : WT_RWLOCK) :
  wf l -> wf (snd (__wt_try_readlock_from old l)).
Proof.
  intros Hl. unfold __wt_try_readlock_from, __wt_atomic_cas64.
  destruct (negb (readers old =? next old)); [exact Hl|].
  destruct (Z.eqb_spec l old) as [<-|_]; cbn [snd]; [|exact Hl].
  apply wf_set_readers, wf_set_next, Hl.
Qed.

Lemma wf_try_writelock_from (old l : WT_RWLOCK) :
  wf l -> wf (snd (__wt_try_writelock_from old l)).
Proof.
  intros Hl. unfold __wt_try_writelock_from, __wt_atomic_cas64.
  destruct (negb (writers old =? next old)); [exact Hl|].
  destruct (Z.eqb_spec l old) as [<-|_]; cbn [snd]; [|exact Hl].
  apply wf_set_writers_active, wf_set_next, Hl.
Qed.

Lemma wf_step_pc (c : call) (p : pc) (l : WT_RWLOCK) :
  wf l -> wf (snd (fst (step_pc c p l))).
Proof.
  intros Hl. destruct p; cbn [step_pc].
  - destruct c; cbn [__wt_atomic_fetch_add16_next fst snd];
      auto using wf_set_next.
  - pose proof (wf_try_readlock_from old l Hl) as H.
    destruct (__wt_try_readlock_from old l) as [ret l'].
    destruct (ret =? 0); exact H.
  - pose proof (wf_try_readlock_from old l Hl) as H.
    destruct (__wt_try_readlock_from old l) as [ret l'].
    destruct (ret =? 0); exact H.
  - exact Hl.
  - exact Hl.
  - destruct (negb (ticket =? readers l)); exact Hl.
  - exact Hl.
  - apply wf_set_readers, Hl.
  - apply wf_set_writers, Hl.
  - pose proof (wf_try_writelock_from old l Hl) as H.
    destruct (__wt_try_writelock_from old l) as [ret l'].
    destruct (ret =? 0); exact H.
  - apply wf_set_writers_active, Hl.
  - destruct (negb (ticket =? writers l)); exact Hl.
  - apply wf_set_writers_active, Hl.
  - exact Hl.
  - apply wf_set_i_wr, Hl.
Qed.

Lemma wf_run (sched : list (nat * call)) (s : sys) :
  wf (lock s) -> wf (lock (run sched s)).
Proof.
  revert s. induction sched as [|[i c] sched IH]; intros s Hs; cbn; auto.
  apply IH. unfold step.
  destruct (nth_error (thr s) i) as [p|]; [|exact Hs].
  pose proof (wf_step_pc c p (lock s) Hs) as H.
  destruct (step_pc c p (lock s)) as [[p' l'] [[dn dr] dw]]. exact H.
Qed.

(** ** The functions, one caller *)

(** C2: for every lock word, [__wt_try_readlock] returns 0 exactly when
    [readers == next]; then the new word has [readers] and [next] both equal
    to the old [next] plus one modulo 2^16, and [writers] and
    [writers_active] as before; on any other word it returns [EBUSY]. *)
Theorem try_readlock_spec (l : WT_RWLOCK) :
  (fst (__wt_try_readlock l) = 0 <-> readers l = next l) /\
  (if readers l =? next l
   then fst (__wt_try_readlock l) = 0 /\
        readers (snd (__wt_try_readlock l)) = (next l + 1) mod 65536 /\
        next (snd (__wt_try_readlock l)) = (next l + 1) mod 65536 /\
        writers (snd (__wt_try_readlock l)) = writers l /\
        writers_active (snd (__wt_try_readlock l)) = writers_active l
   else fst (__wt_try_readlock l) = EBUSY).
Proof.
  unfold __wt_try_readlock.
  destruct (try_readlock_from_cases l l)
    as [(Hf & _ & l' & -> & Hw & Hr & Hn & Ha)|[[Hne|Hne] ->]];
    cbn [fst snd]; [| |congruence].
  - destruct (Z.eqb_spec (readers l) (next l)); [|contradiction].
    unfold u16, B16 in *. tauto.
  - destruct (Z.eqb_spec (readers l) (next l)); [contradiction|].
    unfold EBUSY. split; [split; [discriminate|contradiction]|reflexivity].
Qed.

(** C3: for every lock word, [__wt_try_writelock] returns 0 exactly when
    [writers == next]; then the new word has [next] and [writers_active]
    each incremented by one modulo 2^16, and [writers] and [readers] as
    before; on any other word it returns [EBUSY]. *)
Theorem try_writelock_spec (l : WT_RWLOCK) :
  (fst (__wt_try_writelock l) = 0 <-> writers l = next l) /\
  (if writers l =? next l
   then fst (__wt_try_writelock l) = 0 /\
        next (snd (__wt_try_writelock l)) = (next l + 1) mod 65536 /\
        writers_active (snd (__wt_try_writelock l))
          = (writers_active l + 1) mod 65536 /\
        writers (snd (__wt_try_writelock l)) = writers l /\
        readers (snd (__wt_try_writelock l)) = readers l
   else fst (__wt_try_writelock l) = EBUSY).
Proof.
  unfold __wt_try_writelock.
  destruct (try_writelock_from_cases l l)
    as [(Hf & _ & l' & -> & Hw & Hr & Hn & Ha)|[[Hne|Hne] ->]];
    cbn [fst snd]; [| |congruence].
  - destruct (Z.eqb_spec (writers l) (next l)); [|contradiction].
    unfold u16, B16 in *. tauto.
  - destruct (Z.eqb_spec (writers l) (next l)); [contradiction|].
    unfold EBUSY. split; [split; [discriminate|contradiction]|reflexivity].
Qed.

(** C8: for every lock word, [__wt_readunlock] increments [writers] by
    exactly one modulo 2^16 and leaves [readers], [next] and
    [writers_active] unchanged. *)
Theorem readunlock_spec (l : WT_RWLOCK) :
  writers (__wt_readunlock l) = (writers l + 1) mod 65536 /\
  readers (__wt_readunlock l) = readers l /\
  next (__wt_readunlock l) = next l /\
  writers_active (__wt_readunlock l) = writers_active l.
Proof.
  unfold __wt_readunlock, __wt_atomic_add16_writers.
  autorewrite with word. unfold u16, B16. auto.
Qed.

Lemma try_readlock_from_busy (old l : WT_RWLOCK) :
  fst (__wt_try_readlock_from old l) = EBUSY ->
  snd (__wt_try_readlock_from old l) = l.
Proof.
  destruct (try_readlock_from_cases old l)
    as [(_ & _ & l' & -> & _)|[_ ->]]; cbn [fst snd]; auto.
  discriminate.
Qed.

Lemma try_writelock_from_busy (old l : WT_RWLOCK) :
  fst (__wt_try_writelock_from old l) = EBUSY ->
  snd (__wt_try_writelock_from old l) = l.
Proof.
  destruct (try_writelock_from_cases old l)
    as [(_ & _ & l' & -> & _)|[_ ->]]; cbn [fst snd]; auto.
  discriminate.
Qed.

(** C9: when [__wt_try_readlock] or [__wt_try_writelock] returns [EBUSY],
    the whole lock word is left as it was: a busy return changes none of
    the four fields. *)
Theorem try_busy_unchanged (l : WT_RWLOCK) :
  (fst (__wt_try_readlock l) = EBUSY -> snd (__wt_try_readlock l) = l) /\
  (fst (__wt_try_writelock l) = EBUSY -> snd (__wt_try_writelock l) = l).
Proof.
  split.
  - apply try_readlock_from_busy.
  - apply try_writelock_from_busy.
Qed.

(** A word with [writers = readers = 1] and [next = 0]: both calls are
    refused. *)
Lemma try_busy_unchanged_witness :
  fst (__wt_try_readlock 65537) = EBUSY /\
  snd (__wt_try_readlock 65537) = 65537 /\
  fst (__wt_try_writelock 65537) = EBUSY /\
  snd (__wt_try_writelock 65537) = 65537.
Proof.
  destruct (try_busy_unchanged 65537) as [H1 H2].
  split; [reflexivity|]. split; [apply H1; reflexivity|].
  split; [reflexivity|]. apply H2; reflexivity.
Defined.

(** The last store of [__wt_writeunlock] writes the writers/readers half
    only, whatever the private copy holds elsewhere. *)
Lemma writeunlock_store_frame (new l : WT_RWLOCK) :
  next (writeunlock_store new l) = next l /\
  writers_active (writeunlock_store new l) = writers_active l /\
  writers (writeunlock_store new l) = u16 (writers new + 1) /\
  readers (writeunlock_store new l) = u16 (readers new + 1).
Proof.
  unfold writeunlock_store. autorewrite with word. auto.
Qed.

(** C10: [__wt_writeunlock] never modifies [next]; for every lock word its
    net effect is [writers] incremented by one, [readers] incremented by
    one, [writers_active] decremented by one (each modulo 2^16), and [next]
    unchanged. *)
Theorem writeunlock_spec (l : WT_RWLOCK) :
  writers (__wt_writeunlock l) = (writers l + 1) mod 65536 /\
  readers (__wt_writeunlock l) = (readers l + 1) mod 65536 /\
  writers_active (__wt_writeunlock l) = (writers_active l - 1) mod 65536 /\
  next (__wt_writeunlock l) = next l.
Proof.
  unfold __wt_writeunlock, __wt_atomic_sub16_writers_active.
  destruct (writeunlock_store_frame
              (set_writers_active l (writers_active l - 1))
              (set_writers_active l (writers_active l - 1)))
    as (Hn & Ha & Hw & Hr).
  rewrite Hn, Ha, Hw, Hr. autorewrite with word. unfold u16, B16. auto.
Qed.

Lemma idle_try_writelock (l : WT_RWLOCK) :
  idle l ->
  exists l1, acquire_try l = Some l1 /\ idle (__wt_writeunlock l1).
Proof.
  intros (Hw & Hr & Ha). unfold acquire_try, __wt_try_writelock.
  destruct (try_writelock_from_cases l l)
    as [(_ & _ & l1 & -> & Hw1 & Hr1 & Hn1 & Ha1)|[[Hne|Hne] _]];
    [|congruence|congruence].
  exists l1. split; [reflexivity|].
  unfold idle, __wt_writeunlock, __wt_atomic_sub16_writers_active.
  destruct (writeunlock_store_frame
              (set_writers_active l1 (writers_active l1 - 1))
              (set_writers_active l1 (writers_active l1 - 1)))
    as (Hn2 & Ha2 & Hw2 & Hr2).
  rewrite Hn2, Ha2, Hw2, Hr2. autorewrite with word.
  rewrite Hw1, Hr1, Hn1, Ha1, Ha, Hw, Hr. unfold u16, B16.
  pose proof (next_range l). repeat split; lia.
Qed.

Lemma acquire_now_try (l : WT_RWLOCK) :
  idle l -> acquire_now l = acquire_try l.
Proof.
  intros (Hw & Hr & Ha).
  unfold acquire_now, acquire_try, __wt_writelock, __wt_try_writelock,
    __wt_try_writelock_from, __wt_atomic_fetch_add16_next,
    __wt_atomic_add16_writers_active, __wt_atomic_cas64, spin_wait.
  autorewrite with word.
  rewrite Hw, Hr, !Z.eqb_refl. cbn [negb Z.eqb].
  reflexivity.
Qed.

(** C5: on an idle lock ([writers == readers == next],
    [writers_active == 0]) a write acquisition succeeds at once, by
    [__wt_try_writelock] as by [__wt_writelock], and the following
    [__wt_writeunlock] gives an idle lock again; so every acquisition of an
    alternation of any length succeeds at once. *)
Theorem write_roundtrip (n : nat) (l : WT_RWLOCK) :
  idle l ->
  (exists l1, acquire_try l = Some l1 /\ acquire_now l = Some l1 /\
              idle (__wt_writeunlock l1)) /\
  (exists l', write_cycles acquire_try n l = Some l' /\ idle l') /\
  (exists l', write_cycles acquire_now n l = Some l' /\ idle l').
Proof.
  intros Hl. split; [|split].
  - destruct (idle_try_writelock l Hl) as (l1 & H1 & H2).
    exists l1. rewrite (acquire_now_try l Hl). auto.
  - revert l Hl. induction n as [|n IH]; intros l Hl; cbn [write_cycles].
    + eauto.
    + destruct (idle_try_writelock l Hl) as (l1 & -> & H2). auto.
  - revert l Hl. induction n as [|n IH]; intros l Hl; cbn [write_cycles].
    + eauto.
    + rewrite (acquire_now_try l Hl).
      destruct (idle_try_writelock l Hl) as (l1 & -> & H2). auto.
Qed.

(** An idle lock about to wrap: all three counters at 65535. *)
Lemma write_roundtrip_witness :
  idle 281474976710655 /\
  exists l', write_cycles acquire_try 3 281474976710655 = Some l' /\ idle l'.
Proof.
  assert (H : idle 281474976710655) by (repeat split; reflexivity).
  split; [exact H|].
  destruct (write_roundtrip 3 281474976710655 H) as (_ & H2 & _).
  exact H2.
Defined.

(** ** Tickets issued and served *)

Lemma step_pc_counts (c : call) (p : pc) (l : WT_RWLOCK) :
  match step_pc c p l with
  | (p', _, (dn, dr, dw)) =>
      dr - dw = Z.b2z (is_holdr p') - Z.b2z (is_holdr p) /\
      dn - dr = Z.b2z (is_queued p') - Z.b2z (is_queued p) /\
      0 <= dw
  end.
Proof.
  destruct p; cbn [step_pc];
    try (destruct c; cbn; repeat split; (reflexivity || discriminate));
    try (cbn; repeat split; (reflexivity || discriminate)).
  - destruct (__wt_try_readlock_from old l) as [ret l'].
    destruct (ret =? 0); cbn; repeat split; (reflexivity || discriminate).
  - destruct (__wt_try_readlock_from old l) as [ret l'].
    destruct (ret =? 0); cbn; repeat split; (reflexivity || discriminate).
  - destruct (negb (ticket =? readers l)); cbn; repeat split;
      (reflexivity || discriminate).
  - destruct (__wt_try_writelock_from old l) as [ret l'].
    destruct (ret =? 0); cbn; repeat split; (reflexivity || discriminate).
  - destruct (negb (ticket =? writers l)); cbn; repeat split;
      (reflexivity || discriminate).
Qed.

Lemma g_writers_step (e : nat * call) (s : sys) :
  0 <= g_writers s -> 0 <= g_writers (step e s).
Proof.
  intros H0. destruct e as [i c]. unfold step.
  destruct (nth_error (thr s) i) as [p|] eqn:Hi; [|assumption].
  pose proof (step_pc_counts c p (lock s)) as H.
  destruct (step_pc c p (lock s)) as [[p' l'] [[dn dr] dw]].
  cbn [move g_writers]. lia.
Qed.

Lemma g_writers_run (sched : list (nat * call)) (s : sys) :
  0 <= g_writers s -> 0 <= g_writers (run sched s).
Proof.
  revert s. induction sched as [|e sched IH]; intros s Hs; cbn; auto.
  apply IH, g_writers_step, Hs.
Qed.

Lemma counted_step (e : nat * call) (s : sys) :
  counted s -> counted (step e s).
Proof.
  intros [Hh Hq]. destruct e as [i c]. unfold step.
  destruct (nth_error (thr s) i) as [p|] eqn:Hi; [|split; assumption].
  pose proof (step_pc_counts c p (lock s)) as H.
  destruct (step_pc c p (lock s)) as [[p' l'] [[dn dr] dw]].
  destruct H as (H1 & H2 & _).
  unfold counted, move; cbn [thr g_next g_readers g_writers].
  rewrite !(count_upd _ _ _ _ _ Hi). lia.
Qed.

Lemma counted_run (sched : list (nat * call)) (s : sys) :
  counted s -> counted (run sched s).
Proof.
  revert s. induction sched as [|e sched IH]; intros s Hs; cbn; auto.
  apply IH, counted_step, Hs.
Qed.

Lemma counted_init (n : nat) : counted (init n).
Proof.
  unfold counted, init; cbn [thr g_next g_readers g_writers].
  rewrite !count_repeat by reflexivity. auto.
Qed.

(** C6: in every state reached from the initialized lock by the calls of
    any number of threads, the tickets served to writers and to readers,
    counted without wrap, never exceed the tickets issued:
    [writers <= next] and [readers <= next].  With fewer than 65536 threads
    the three 16-bit fields are these counts modulo 2^16, and fewer than
    65536 tickets are outstanding. *)
Theorem served_le_issued (n : nat) (sched : list (nat * call)) :
  let s := run sched (init n) in
  0 <= g_writers s /\
  g_writers s <= g_next s /\
  g_readers s <= g_next s /\
  (Z.of_nat n < 65536 ->
   writers (lock s) = g_writers s mod 65536 /\
   readers (lock s) = g_readers s mod 65536 /\
   next (lock s) = g_next s mod 65536 /\
   g_next s - g_writers s < 65536).
Proof.
  intros s.
  pose proof (counted_run sched _ (counted_init n)) as [Hh Hq].
  fold s in Hh, Hq.
  pose proof (count_range is_holdr (thr s)) as Rh.
  pose proof (count_range is_queued (thr s)) as Rq.
  assert (Hw : 0 <= g_writers s).
  { apply g_writers_run. cbn. lia. }
  repeat split; try lia.
  - apply (inv_writers _ (inv_reachable n sched H)).
  - apply (inv_readers _ (inv_reachable n sched H)).
  - apply (inv_next _ (inv_reachable n sched H)).
  - pose proof (count_classes_le (thr s)) as Hle.
    unfold s in Hle at 3. rewrite length_reachable in Hle. lia.
Qed.

(** Two threads: the lock is handed over from a writer to a waiting
    reader. *)
Lemma served_le_issued_witness :
  Z.of_nat 2 < 65536 /\
  writers (lock (run handover_sched (init 2)))
  = g_writers (run handover_sched (init 2)) mod 65536 /\
  g_writers (run handover_sched (init 2))
  <= g_next (run handover_sched (init 2)).
Proof.
  destruct (served_le_issued 2 handover_sched) as (_ & H1 & _ & H2).
  split; [reflexivity|]. split; [|exact H1].
  apply H2. reflexivity.
Defined.

(** ** Mutual exclusion *)

Lemma exclusive_inv (s : sys) : inv s -> exclusive s.
Proof.
  intros Hinv i j p q Hij Hi Hj Hp.
  assert (exists t, qticket p = Some t /\ t = readers (lock s) /\
                    t = writers (lock s)) as (t & Hq & Hr & Hw).
  { pose proof (inv_local _ Hinv _ _ Hi) as Hloc.
    destruct p; try discriminate; cbn [pc_ok] in Hloc;
      eexists; (split; [reflexivity|tauto]). }
  destruct (inv_served_writer _ _ _ _ Hinv Hi Hq Hw) as [_ H0].
  pose proof (inv_local _ Hinv _ _ Hj) as Hloc.
  assert (Hno : qticket q = Some t -> False).
  { intros Hq'. apply Hij. eapply inv_distinct; eauto. }
  destruct q; cbn [holds_read holds_write]; split; try reflexivity;
    exfalso; cbn [pc_ok] in Hloc;
    try (apply Hno; cbn [qticket]; f_equal; lia).
  pose proof (count_mem is_holdr _ _ _ Hj eq_refl). lia.
Qed.

Lemma nth_error_step_other (k i : nat) (c : call) (s : sys) :
  i <> k -> nth_error (thr (step (k, c) s)) i = nth_error (thr s) i.
Proof.
  intros Hne. unfold step.
  destruct (nth_error (thr s) k) as [p|]; [|reflexivity].
  destruct (step_pc c p (lock s)) as [[p' l'] [[dn dr] dw]].
  cbn [move thr]. apply nth_error_upd_other. assumption.
Qed.

(** C1 (amended): with at most 65536 threads, in every state of every
    interleaving a thread that holds the write lock is the only holder; so
    no write acquisition completes while another thread holds the lock for
    reading or writing, and no read acquisition completes while another
    thread holds it for writing. *)
Theorem mutual_exclusion (n : nat) (sched : list (nat * call)) :
  Z.of_nat n <= 65536 ->
  let s := run sched (init n) in
  exclusive s /\
  forall e i j p p' q,
    i <> j ->
    nth_error (thr s) i = Some p ->
    nth_error (thr (step e s)) i = Some p' ->
    nth_error (thr s) j = Some q ->
    (completes holds_write p p' = true ->
     holds_read q = false /\ holds_write q = false) /\
    (completes holds_read p p' = true -> holds_write q = false).
Proof.
  intros Hn s.
  pose proof (inv_reachable_le n sched Hn) as Hinv. fold s in Hinv.
  split; [apply exclusive_inv, Hinv|].
  intros [k c] i j p p' q Hij Hi Hi' Hj.
  pose proof (exclusive_inv _ (inv_step (k, c) _ Hinv)) as Hex.
  destruct (Nat.eq_dec i k) as [->|Hne].
  - assert (Hj' : nth_error (thr (step (k, c) s)) j = Some q).
    { rewrite nth_error_step_other; auto. }
    unfold completes. split; intros Hc; apply andb_prop in Hc as [_ Hc].
    + eapply Hex; eauto.
    + destruct (holds_write q) eqn:Hq; [|reflexivity].
      destruct (Hex j k q p' (not_eq_sym Hij) Hj' Hi' Hq) as [Hr _].
      congruence.
  - rewrite nth_error_step_other in Hi' by assumption.
    assert (p' = p) by congruence. subst p'.
    unfold completes.
    split; intros Hc; apply andb_prop in Hc as [Hc1 Hc2];
      destruct (_ p); discriminate.
Qed.

(** Two threads, one taking and releasing the write lock, the other
    calling [__wt_try_readlock] meanwhile. *)
Lemma mutual_exclusion_witness :
  Z.of_nat 2 <= 65536 /\
  exclusive (run [(0, WRITELOCK); (1, TRY_READLOCK); (0, WRITELOCK);
                  (0, WRITELOCK); (1, TRY_READLOCK)]%nat (init 2)).
Proof.
  split; [discriminate|].
  apply (mutual_exclusion 2
           [(0, WRITELOCK); (1, TRY_READLOCK); (0, WRITELOCK);
            (0, WRITELOCK); (1, TRY_READLOCK)]%nat).
  discriminate.
Defined.

(** *** The wrap of the ticket counter *)

Lemma run_app (a b : list (nat * call)) (s : sys) :
  run (a ++ b) s = run b (run a s).
Proof. apply fold_left_app. Qed.

Lemma upd_app (a b : list pc) (x y : pc) (k : nat) :
  length a = k -> upd k x (a ++ y :: b) = a ++ x :: b.
Proof.
  intros <-.
  induction a as [|z a IH]; cbn [length app]; unfold upd; fold upd.
  - reflexivity.
  - rewrite IH. reflexivity.
Qed.

Lemma nth_error_mid (a b : list pc) (y : pc) (k : nat) :
  length a = k -> nth_error (a ++ y :: b) k = Some y.
Proof.
  intros <-.
  rewrite nth_error_app2 by apply Nat.le_refl.
  rewrite Nat.sub_diag. reflexivity.
Qed.

Lemma try_read_all_S (k : nat) :
  try_read_all (S k)
  = try_read_all k ++ [(k, TRY_READLOCK); (k, TRY_READLOCK)].
Proof.
  unfold try_read_all. rewrite seq_S, flat_map_app. cbn [flat_map Nat.add].
  rewrite app_nil_r. reflexivity.
Qed.

(** After [k] readers have taken the lock one after the other, [readers]
    and [next] are [k] modulo 2^16 and [writers] is 0. *)
Lemma try_read_all_run (k m : nat) :
  let s := run (try_read_all k) (init (k + m)) in
  thr s = repeat HoldR k ++ repeat Idle m /\
  writers (lock s) = 0 /\
  readers (lock s) = Z.of_nat k mod 65536 /\
  next (lock s) = Z.of_nat k mod 65536.
Proof.
  revert m. induction k as [|k IH]; intros m.
  - cbn. repeat split; reflexivity.
  - rewrite try_read_all_S. cbn zeta. rewrite run_app.
    replace (S k + m)%nat with (k + S m)%nat by lia.
    specialize (IH (S m)). cbn zeta in IH.
    set (s := run (try_read_all k) (init (k + S m))) in *.
    destruct IH as (Ht & Hw & Hr & Hn).
    assert (Hk : length (repeat HoldR k) = k) by apply repeat_length.
    assert (H1 : step (k, TRY_READLOCK) s
                 = move s k (TryR_cas (lock s)) (lock s) 0 0 0).
    { unfold step. rewrite Ht. cbn [repeat].
      rewrite (nth_error_mid _ _ _ _ Hk). reflexivity. }
    cbn [run fold_left]. rewrite H1.
    unfold step. cbn [move thr lock]. rewrite Ht. cbn [repeat].
    rewrite (upd_app _ _ _ _ _ Hk), (nth_error_mid _ _ _ _ Hk).
    cbn [step_pc].
    destruct (try_readlock_from_cases (lock s) (lock s))
      as [(_ & _ & l' & -> & Hw' & Hr' & Hn' & _)|[[Hne|Hne] _]];
      [|rewrite Hr, Hn in Hne; congruence|congruence].
    cbn [Z.eqb move thr lock g_next g_readers g_writers].
    rewrite Ht. cbn [repeat]. rewrite !(upd_app _ _ _ _ _ Hk).
    rewrite Hw', Hr', Hn', Hw, Hn. unfold u16, B16.
    repeat split.
    + rewrite repeat_cons, <- app_assoc. reflexivity.
    + rewrite Nat2Z.inj_succ. lia.
    + rewrite Nat2Z.inj_succ. lia.
Qed.

(** Whenever the number of readers is a multiple of 2^16, one more thread
    takes the write lock by [__wt_try_writelock]. *)
Lemma try_write_after_wrap (k : nat) :
  Z.of_nat k mod 65536 = 0 -> k <> O ->
  let s := run (try_read_all k ++ [(k, TRY_WRITELOCK); (k, TRY_WRITELOCK)])
             (init (S k)) in
  nth_error (thr s) 0 = Some HoldR /\
  nth_error (thr s) k = Some (HoldW 0) /\
  ~ exclusive s.
Proof.
  intros Hmod Hk0. cbn zeta. rewrite run_app.
  replace (S k) with (k + 1)%nat by lia.
  pose proof (try_read_all_run k 1) as H. cbn zeta in H.
  set (s := run (try_read_all k) (init (k + 1))) in *.
  destruct H as (Ht & Hw & Hr & Hn).
  rewrite Hmod in Hr, Hn.
  assert (Hk : length (repeat HoldR k) = k) by apply repeat_length.
  assert (H1 : step (k, TRY_WRITELOCK) s
               = move s k (TryW_cas (lock s)) (lock s) 0 0 0).
  { unfold step. rewrite Ht. cbn [repeat].
    rewrite (nth_error_mid _ _ _ _ Hk). reflexivity. }
  cbn [run fold_left]. rewrite H1.
  unfold step. cbn [move thr lock]. rewrite Ht. cbn [repeat].
  rewrite (upd_app _ _ _ _ _ Hk), (nth_error_mid _ _ _ _ Hk).
  cbn [step_pc].
  destruct (try_writelock_from_cases (lock s) (lock s))
    as [(_ & _ & l' & -> & _)|[[Hne|Hne] _]];
    [|rewrite Hw, Hn in Hne; congruence|congruence].
  cbn [Z.eqb]. rewrite Hn.
  set (s2 := move _ k (HoldW 0) l' 1 0 0).
  assert (T : thr s2 = repeat HoldR k ++ [HoldW 0]).
  { unfold s2. cbn [move thr]. rewrite Ht. cbn [repeat].
    rewrite !(upd_app _ _ _ _ _ Hk). reflexivity. }
  assert (A : nth_error (thr s2) 0 = Some HoldR).
  { rewrite T. destruct k; [congruence|reflexivity]. }
  assert (B : nth_error (thr s2) k = Some (HoldW 0)).
  { rewrite T. apply nth_error_mid, Hk. }
  split; [exact A|]. split; [exact B|].
  intros Hex.
  destruct (Hex k O (HoldW 0) HoldR Hk0 B A eq_refl) as [Hx _].
  discriminate.
Qed.

Lemma Z_of_WRAP : Z.of_nat WRAP = 65536.
Proof. unfold WRAP. apply Z2Nat.id. lia. Qed.

Lemma WRAP_pos : WRAP <> O.
Proof.
  intros E. pose proof Z_of_WRAP as H. rewrite E in H. discriminate.
Qed.

(** C1 (counterexample): with 65537 threads mutual exclusion fails.  65536
    threads take the read lock; [next] is back at 0, the value of
    [writers], and the [__wt_try_writelock] of the last thread succeeds
    while all of them hold the lock. *)
Lemma mutual_exclusion_wrap :
  let s := run wrap_sched (init (S WRAP)) in
  nth_error (thr s) 0 = Some HoldR /\
  nth_error (thr s) WRAP = Some (HoldW 0) /\
  ~ exclusive s.
Proof.
  apply try_write_after_wrap.
  - rewrite Z_of_WRAP. reflexivity.
  - exact WRAP_pos.
Qed.

(** ** The worked example *)

Lemma upd_upd (i : nat) (x y : pc) (ps : list pc) :
  upd i x (upd i y ps) = upd i x ps.
Proof.
  revert i; induction ps as [|a ps IH]; intros [|i]; unfold upd; fold upd;
    try reflexivity.
  rewrite IH. reflexivity.
Qed.

Lemma upd_same (i : nat) (p : pc) (ps : list pc) :
  nth_error ps i = Some p -> upd i p ps = ps.
Proof.
  revert i; induction ps as [|a ps IH]; intros [|i] Hi; unfold upd; fold upd;
    cbn [nth_error] in Hi; try discriminate.
  - congruence.
  - rewrite (IH _ Hi). reflexivity.
Qed.

Lemma int_wrap_idem (v : Z) : int_wrap (int_wrap v) = int_wrap v.
Proof. unfold int_wrap. lia. Qed.

Lemma int_wrap_add (a b : Z) : int_wrap (int_wrap a + b) = int_wrap (a + b).
Proof. unfold int_wrap. lia. Qed.

Lemma int_wrap_small (v : Z) :
  -2147483648 <= v < 2147483648 -> int_wrap v = v.
Proof. unfold int_wrap. lia. Qed.

(** A writer whose ticket is not served stays in its loop, whatever the
    number of tests, and changes nothing but its count of pauses. *)
Lemma run_test_blocked (s : sys) (i : nat) (t c : Z) (cl : call) (k : nat) :
  nth_error (thr s) i = Some (W_wait t c) ->
  c = int_wrap c ->
  t <> writers (lock s) ->
  run (repeat (i, cl) k) s
  = mkSys (lock s) (upd i (W_wait t (int_wrap (c + Z.of_nat k))) (thr s))
      (g_next s) (g_readers s) (g_writers s).
Proof.
  revert s c. induction k as [|k IH]; intros s c Hi Hc Ht.
  - cbn [repeat run fold_left Z.of_nat]. rewrite Z.add_0_r, <- Hc.
    rewrite (upd_same _ _ _ Hi). destruct s; reflexivity.
  - cbn [repeat run fold_left].
    assert (E : step (i, cl) s
                = move s i (W_wait t (int_incr c)) (lock s) 0 0 0).
    { unfold step. rewrite Hi. cbn [step_pc].
      destruct (Z.eqb_spec t (writers (lock s))); [contradiction|].
      reflexivity. }
    rewrite E. change (fold_left _ ?a ?b) with (run a b).
    rewrite (IH _ (int_incr c)).
    + cbn [move lock thr g_next g_readers g_writers].
      unfold int_incr. rewrite upd_upd, !Z.add_0_r, int_wrap_add.
      rewrite Nat2Z.inj_succ.
      replace (c + 1 + Z.of_nat k) with (c + Z.succ (Z.of_nat k)) by lia.
      reflexivity.
    + cbn [move thr]. eapply nth_error_upd_same; eauto.
    + unfold int_incr. symmetry. apply int_wrap_idem.
    + assumption.
Qed.

(** C4 (amended): the worked example.  From the all-zero lock, three
    readers are granted tickets 0, 1, 2 and [readers] is 3; a writer takes
    ticket 3 ([next] is 4) and stays in its loop since [writers] is 0;
    the releases of the readers with tickets 2, 0, 1 make [writers] 1, 2, 3,
    and the writer stays in its loop, whatever the number of its tests,
    until the third release; its first test after it succeeds, with
    [writers == readers == 3], its ticket, and [next == 4].  The writer's
    [pause_cnt] is the number of its failed tests as a C [int]. *)
Theorem worked_example (k0 k1 k2 : nat) :
  nth_error (thr (run [(0%nat, READLOCK)] (init 4))) 0
    = Some (R_wait 0 0) /\
  nth_error (thr (run (acquire_read 0 ++ [(1%nat, READLOCK)]) (init 4))) 1
    = Some (R_wait 1 0) /\
  nth_error
    (thr (run (acquire_read 0 ++ acquire_read 1 ++ [(2%nat, READLOCK)])
            (init 4))) 2
    = Some (R_wait 2 0) /\
  run (acquire_read 0 ++ acquire_read 1 ++ acquire_read 2) (init 4)
    = mkSys (pack 0 3 3 0) [HoldR; HoldR; HoldR; Idle] 3 3 0 /\
  run (example_request k0) (init 4)
    = mkSys (pack 0 3 4 1)
        [HoldR; HoldR; HoldR; W_wait 3 (int_wrap (Z.of_nat k0))] 4 3 0 /\
  run (example_release2 k0 k1) (init 4)
    = mkSys (pack 1 3 4 1)
        [HoldR; HoldR; Idle;
         W_wait 3 (int_wrap (Z.of_nat k0 + Z.of_nat k1))] 4 3 1 /\
  run (example_release0 k0 k1 k2) (init 4)
    = mkSys (pack 2 3 4 1)
        [Idle; HoldR; Idle;
         W_wait 3 (int_wrap (Z.of_nat k0 + Z.of_nat k1 + Z.of_nat k2))]
        4 3 2 /\
  run (example_release1 k0 k1 k2) (init 4)
    = mkSys (pack 3 3 4 1)
        [Idle; Idle; Idle;
         W_wait 3 (int_wrap (Z.of_nat k0 + Z.of_nat k1 + Z.of_nat k2))]
        4 3 3 /\
  run (example_grant k0 k1 k2) (init 4)
    = mkSys (pack 3 3 4 1) [Idle; Idle; Idle; HoldW 3] 4 3 3.
Proof.
  assert (E0 : run (acquire_read 0 ++ acquire_read 1 ++ acquire_read 2)
                 (init 4)
               = mkSys (pack 0 3 3 0) [HoldR; HoldR; HoldR; Idle] 3 3 0)
    by reflexivity.
  assert (E1 : run (example_request k0) (init 4)
               = mkSys (pack 0 3 4 1)
                   [HoldR; HoldR; HoldR; W_wait 3 (int_wrap (Z.of_nat k0))]
                   4 3 0).
  { unfold example_request.
    replace (acquire_read 0 ++ acquire_read 1 ++ acquire_read 2
             ++ request_write 3 ++ test_write 3 k0)
      with ((acquire_read 0 ++ acquire_read 1 ++ acquire_read 2)
            ++ request_write 3 ++ test_write 3 k0)
      by (rewrite <- !app_assoc; reflexivity).
    rewrite run_app, E0, run_app. unfold test_write.
    rewrite (run_test_blocked _ 3 3 0 WRITELOCK k0);
      [reflexivity|reflexivity|reflexivity|discriminate]. }
  assert (E2 : run (example_release2 k0 k1) (init 4)
               = mkSys (pack 1 3 4 1)
                   [HoldR; HoldR; Idle;
                    W_wait 3 (int_wrap (Z.of_nat k0 + Z.of_nat k1))] 4 3 1).
  { unfold example_release2. rewrite !run_app, E1. unfold test_write.
    rewrite (run_test_blocked _ 3 3 (int_wrap (Z.of_nat k0)) WRITELOCK k1);
      [|reflexivity|symmetry; apply int_wrap_idem|discriminate].
    rewrite int_wrap_add. reflexivity. }
  assert (E3 : run (example_release0 k0 k1 k2) (init 4)
               = mkSys (pack 2 3 4 1)
                   [Idle; HoldR; Idle;
                    W_wait 3
                      (int_wrap (Z.of_nat k0 + Z.of_nat k1 + Z.of_nat k2))]
                   4 3 2).
  { unfold example_release0. rewrite !run_app, E2. unfold test_write.
    rewrite (run_test_blocked _ 3 3
               (int_wrap (Z.of_nat k0 + Z.of_nat k1)) WRITELOCK k2);
      [|reflexivity|symmetry; apply int_wrap_idem|discriminate].
    rewrite int_wrap_add. reflexivity. }
  assert (E4 : run (example_release1 k0 k1 k2) (init 4)
               = mkSys (pack 3 3 4 1)
                   [Idle; Idle; Idle;
                    W_wait 3
                      (int_wrap (Z.of_nat k0 + Z.of_nat k1 + Z.of_nat k2))]
                   4 3 3).
  { unfold example_release1. rewrite run_app, E3. reflexivity. }
  repeat split; try assumption; try reflexivity.
  unfold example_grant. rewrite run_app, E4. reflexivity.
Qed.

(** C4 (counterexample): at the end of the worked example [next] is 4, the
    ticket after the writer's, and not 3. *)
Lemma worked_example_next :
  next (lock (run (example_grant 0 0 0) (init 4))) = 4 /\
  writers (lock (run (example_grant 0 0 0) (init 4))) = 3 /\
  ~ (writers (lock (run (example_grant 0 0 0) (init 4)))
     = next (lock (run (example_grant 0 0 0) (init 4)))).
Proof.
  repeat split; try reflexivity. vm_compute. discriminate.
Qed.

(** ** The diagnostic *)

Lemma islocked_fields (l : WT_RWLOCK) :
  __wt_rwlock_islocked l = true <->
  writers l <> next l \/ readers l <> next l.
Proof.
  unfold __wt_rwlock_islocked.
  destruct (Z.eqb_spec (writers l) (next l));
    destruct (Z.eqb_spec (readers l) (next l)); cbn; intuition congruence.
Qed.

(** C7 (amended): for every lock word, [__wt_rwlock_islocked] is true if
    and only if [writers != next] or [readers != next], and it is false on
    the initialized lock.  With fewer than 65536 threads it is true exactly
    when some thread owns a ticket: from the step that takes the ticket
    (the compare-and-swap of a successful try, or the fetch-and-add of a
    blocking call, which may still wait) to the end of the matching
    release. *)
Theorem islocked_spec (l : WT_RWLOCK) (n : nat) (sched : list (nat * call)) :
  (__wt_rwlock_islocked l = true <->
   writers l <> next l \/ readers l <> next l) /\
  __wt_rwlock_islocked __wt_rwlock_init = false /\
  (Z.of_nat n < 65536 ->
   (__wt_rwlock_islocked (lock (run sched (init n))) = true <->
    exists i p,
      nth_error (thr (run sched (init n))) i = Some p /\
      has_ticket p = true)).
Proof.
  split; [apply islocked_fields|]. split; [reflexivity|]. intros Hn.
  pose proof (inv_reachable n sched Hn) as Hinv.
  pose proof (length_reachable n sched) as Hlen.
  set (s := run sched (init n)) in *.
  destruct Hinv as [Ht Iw Ir In Ih Iq Ipos Idis Iloc].
  pose proof (count_classes (thr s)) as Hc.
  pose proof (count_classes_le (thr s)) as Hle.
  pose proof (count_range is_queued (thr s)) as Rq.
  pose proof (count_range is_holdr (thr s)) as Rh.
  rewrite islocked_fields, Iw, Ir, In. split.
  - intros H. apply count_ex. lia.
  - intros (i & p & Hi & Hp).
    pose proof (count_mem has_ticket _ _ _ Hi Hp). lia.
Qed.

(** Two threads: the lock is handed over from a writer to a waiting
    reader. *)
Lemma islocked_spec_witness :
  Z.of_nat 2 < 65536 /\
  (__wt_rwlock_islocked (lock (run handover_sched (init 2))) = true <->
   exists i p,
     nth_error (thr (run handover_sched (init 2))) i = Some p /\
     has_ticket p = true).
Proof.
  destruct (islocked_spec 0 2 handover_sched) as (_ & _ & H).
  split; [reflexivity|]. apply H. reflexivity.
Defined.

(** C7 (counterexample): [__wt_rwlock_islocked] is not the same as "a call
    has returned with the lock".  After a writer has released the lock while
    a reader waits with its ticket, the lock is reported locked and no
    thread holds it; and when 65536 readers hold the lock it is reported
    free. *)
Lemma islocked_not_acquired :
  ~ islocked_iff_acquired (run handover_sched (init 2)) /\
  ~ islocked_iff_acquired (run (try_read_all WRAP) (init WRAP)).
Proof.
  split.
  - intros [H _].
    destruct (H eq_refl) as (i & p & Hi & Hp).
    change (thr (run handover_sched (init 2))) with [Idle; R_wait 1 0] in Hi.
    destruct i as [|[|[|i]]]; cbn in Hi; try discriminate;
      injection Hi as <-; discriminate.
  - pose proof (try_read_all_run WRAP 0) as H. cbn zeta in H.
    rewrite Nat.add_0_r in H.
    set (s := run (try_read_all WRAP) (init WRAP)) in *.
    destruct H as (Ht & Hw & Hr & Hn).
    rewrite Z_of_WRAP in Hr, Hn. change (65536 mod 65536) with 0 in Hr, Hn.
    intros [_ H].
    assert (Hl : __wt_rwlock_islocked (lock s) = true).
    { apply H. exists O, HoldR. split; [|reflexivity].
      rewrite Ht. pose proof WRAP_pos.
      destruct WRAP; [congruence|reflexivity]. }
    apply islocked_fields in Hl. lia.
Qed.

(** ** One thread alone runs the functions *)

Lemma solo_try_readlock (l : WT_RWLOCK) :
  lock (solo_run 2 TRY_READLOCK (solo l Idle)) = snd (__wt_try_readlock l) /\
  thr (solo_run 2 TRY_READLOCK (solo l Idle))
  = [if fst (__wt_try_readlock l) =? 0 then HoldR else Idle].
Proof.
  unfold solo_run, solo, __wt_try_readlock.
  change (run (repeat (O, TRY_READLOCK) 2) ?s)
    with (step (O, TRY_READLOCK) (step (O, TRY_READLOCK) s)).
  change (step (O, TRY_READLOCK) (mkSys l [Idle] 0 0 0))
    with (mkSys l [TryR_cas l] 0 0 0).
  unfold step. cbn [thr lock nth_error step_pc].
  destruct (__wt_try_readlock_from l l) as [ret l'].
  cbn [fst snd]. destruct (ret =? 0); split; reflexivity.
Qed.

Lemma solo_try_writelock (l : WT_RWLOCK) :
  lock (solo_run 2 TRY_WRITELOCK (solo l Idle)) = snd (__wt_try_writelock l) /\
  thr (solo_run 2 TRY_WRITELOCK (solo l Idle))
  = [if fst (__wt_try_writelock l) =? 0 then HoldW (next l) else Idle].
Proof.
  unfold solo_run, solo, __wt_try_writelock.
  change (run (repeat (O, TRY_WRITELOCK) 2) ?s)
    with (step (O, TRY_WRITELOCK) (step (O, TRY_WRITELOCK) s)).
  change (step (O, TRY_WRITELOCK) (mkSys l [Idle] 0 0 0))
    with (mkSys l [TryW_cas l] 0 0 0).
  unfold step. cbn [thr lock nth_error step_pc].
  destruct (__wt_try_writelock_from l l) as [ret l'].
  cbn [fst snd]. destruct (ret =? 0); split; reflexivity.
Qed.

Lemma solo_readunlock (l : WT_RWLOCK) (c : call) :
  solo_run 1 c (solo l HoldR) = mkSys (__wt_readunlock l) [Idle] 0 0 1.
Proof. reflexivity. Qed.

Lemma solo_writeunlock (l : WT_RWLOCK) (t : Z) (c : call) :
  solo_run 3 c (solo l (HoldW t)) = mkSys (__wt_writeunlock l) [Idle] 0 1 1.
Proof. reflexivity. Qed.

(** The blocking calls, when the ticket is served at the first test. *)
Lemma solo_readlock (l : WT_RWLOCK) :
  readers l = next l ->
  __wt_readlock O l = Some (lock (solo_run 4 READLOCK (solo l Idle))) /\
  thr (solo_run 4 READLOCK (solo l Idle)) = [HoldR].
Proof.
  intros H. unfold solo_run, solo.
  change (run (repeat (O, READLOCK) 4) ?s)
    with (step (O, READLOCK) (step (O, READLOCK)
           (step (O, READLOCK) (step (O, READLOCK) s)))).
  change (step (O, READLOCK) (mkSys l [Idle] 0 0 0))
    with (mkSys (set_next l (next l + 1)) [R_wait (next l) 0] 1 0 0).
  assert (E : (next l =? readers (set_next l (next l + 1))) = true).
  { autorewrite with word. rewrite H. apply Z.eqb_refl. }
  assert (S1 : step (O, READLOCK)
                 (mkSys (set_next l (next l + 1)) [R_wait (next l) 0] 1 0 0)
               = mkSys (set_next l (next l + 1)) [R_load (next l)] 1 0 0).
  { unfold step. cbn [thr lock nth_error step_pc]. rewrite E. reflexivity. }
  rewrite S1.
  unfold __wt_readlock, __wt_atomic_fetch_add16_next, spin_wait.
  rewrite E. cbn [negb]. split; reflexivity.
Qed.

Lemma solo_writelock (l : WT_RWLOCK) :
  writers l = next l ->
  __wt_writelock O l = Some (lock (solo_run 3 WRITELOCK (solo l Idle))) /\
  thr (solo_run 3 WRITELOCK (solo l Idle)) = [HoldW (next l)].
Proof.
  intros H. unfold solo_run, solo.
  change (run (repeat (O, WRITELOCK) 3) ?s)
    with (step (O, WRITELOCK) (step (O, WRITELOCK) (step (O, WRITELOCK) s))).
  change (step (O, WRITELOCK)
            (step (O, WRITELOCK) (mkSys l [Idle] 0 0 0)))
    with (mkSys (__wt_atomic_add16_writers_active
                   (set_next l (next l + 1)) 1)
            [W_wait (next l) 0] 1 0 0).
  assert (E : (next l =? writers (__wt_atomic_add16_writers_active
                                     (set_next l (next l + 1)) 1)) = true).
  { unfold __wt_atomic_add16_writers_active. autorewrite with word.
    rewrite H. apply Z.eqb_refl. }
  assert (S1 : step (O, WRITELOCK)
                 (mkSys (__wt_atomic_add16_writers_active
                           (set_next l (next l + 1)) 1)
                    [W_wait (next l) 0] 1 0 0)
               = mkSys (__wt_atomic_add16_writers_active
                          (set_next l (next l + 1)) 1)
                   [HoldW (next l)] 1 0 0).
  { unfold step. cbn [thr lock nth_error step_pc]. rewrite E. reflexivity. }
  rewrite S1.
  unfold __wt_writelock, __wt_atomic_fetch_add16_next, spin_wait.
  rewrite E. cbn [negb]. split; reflexivity.
Qed.


(** ** The blocking calls, one caller *)

Lemma spin_wait_served (fuel : nat) (served : WT_RWLOCK -> Z) (ticket c : Z)
    (l : WT_RWLOCK) :
  ticket = served l -> spin_wait fuel served ticket c l = Some c.
Proof.
  intros ->. destruct fuel; cbn [spin_wait]; rewrite Z.eqb_refl; reflexivity.
Qed.

Lemma spin_wait_blocked (fuel : nat) (served : WT_RWLOCK -> Z) (ticket c : Z)
    (l : WT_RWLOCK) :
  ticket <> served l -> spin_wait fuel served ticket c l = None.
Proof.
  intros Hne. revert c. induction fuel as [|fuel IH]; intros c;
    cbn [spin_wait];
    destruct (Z.eqb_spec ticket (served l)); try contradiction; cbn [negb];
    auto.
Qed.

Lemma set_readers_u16 (l : WT_RWLOCK) (v w : Z) :
  u16 v = u16 w -> set_readers l v = set_readers l w.
Proof. unfold set_readers. intros ->. reflexivity. Qed.

Lemma try_readlock_free (l : WT_RWLOCK) :
  readers l = next l ->
  __wt_try_readlock l
  = (0, set_readers (set_next l (next l + 1))
          (next (set_next l (next l + 1)))).
Proof.
  intros H. unfold __wt_try_readlock, __wt_try_readlock_from,
    __wt_atomic_cas64.
  rewrite H, !Z.eqb_refl. reflexivity.
Qed.

Lemma try_readlock_held (l : WT_RWLOCK) :
  readers l <> next l -> __wt_try_readlock l = (EBUSY, l).
Proof.
  intros H. unfold __wt_try_readlock, __wt_try_readlock_from.
  destruct (Z.eqb_spec (readers l) (next l)); [contradiction|reflexivity].
Qed.

Lemma try_writelock_free (l : WT_RWLOCK) :
  writers l = next l ->
  __wt_try_writelock l
  = (0, set_writers_active (set_next l (next l + 1))
          (writers_active (set_next l (next l + 1)) + 1)).
Proof.
  intros H. unfold __wt_try_writelock, __wt_try_writelock_from,
    __wt_atomic_cas64.
  rewrite H, !Z.eqb_refl. reflexivity.
Qed.

Lemma try_writelock_held (l : WT_RWLOCK) :
  writers l <> next l -> __wt_try_writelock l = (EBUSY, l).
Proof.
  intros H. unfold __wt_try_writelock, __wt_try_writelock_from.
  destruct (Z.eqb_spec (writers l) (next l)); [contradiction|reflexivity].
Qed.

Lemma readlock_served (fuel : nat) (l : WT_RWLOCK) :
  readers l = next l ->
  __wt_readlock fuel l = Some (snd (__wt_try_readlock l)).
Proof.
  intros H. rewrite (try_readlock_free l H). cbn [snd].
  unfold __wt_readlock, __wt_atomic_fetch_add16_next.
  rewrite spin_wait_served by (autorewrite with word; congruence).
  f_equal. apply set_readers_u16. autorewrite with word. rewrite H.
  unfold u16, B16. lia.
Qed.

Lemma readlock_blocked (fuel : nat) (l : WT_RWLOCK) :
  readers l <> next l -> __wt_readlock fuel l = None.
Proof.
  intros H. unfold __wt_readlock, __wt_atomic_fetch_add16_next.
  rewrite spin_wait_blocked by (autorewrite with word; congruence).
  reflexivity.
Qed.

Lemma writelock_served (fuel : nat) (l : WT_RWLOCK) :
  writers l = next l ->
  __wt_writelock fuel l = Some (snd (__wt_try_writelock l)).
Proof.
  intros H. rewrite (try_writelock_free l H). cbn [snd].
  unfold __wt_writelock, __wt_atomic_fetch_add16_next,
    __wt_atomic_add16_writers_active.
  rewrite spin_wait_served by (autorewrite with word; congruence).
  reflexivity.
Qed.

Lemma writelock_blocked (fuel : nat) (l : WT_RWLOCK) :
  writers l <> next l -> __wt_writelock fuel l = None.
Proof.
  intros H. unfold __wt_writelock, __wt_atomic_fetch_add16_next,
    __wt_atomic_add16_writers_active.
  rewrite spin_wait_blocked by (autorewrite with word; congruence).
  reflexivity.
Qed.

Lemma readlock_spin_blocked (fuel : nat) (l : WT_RWLOCK) :
  readers l <> next l -> __wt_readlock_spin fuel l = None.
Proof.
  intros H. induction fuel as [|fuel IH]; cbn [__wt_readlock_spin];
    rewrite (try_readlock_held l H); cbn [Z.eqb EBUSY negb]; auto.
Qed.

(** X1: a caller alone gets the read lock from [__wt_readlock] exactly when
    [readers == next]; the call then returns at its first test, whatever
    the fuel, and leaves the word [__wt_try_readlock] leaves.  On any other
    word it never returns: the ticket it took is not served, and nobody
    else changes the word. *)
Theorem readlock_alone (fuel : nat) (l : WT_RWLOCK) :
  __wt_readlock fuel l
  = if readers l =? next l then Some (snd (__wt_try_readlock l)) else None.
Proof.
  destruct (Z.eqb_spec (readers l) (next l)) as [H|H].
  - apply readlock_served, H.
  - apply readlock_blocked, H.
Qed.

(** X2: a caller alone gets the write lock from [__wt_writelock] exactly
    when [writers == next]; the call then returns at its first test,
    whatever the fuel, and leaves the word [__wt_try_writelock] leaves.  On
    any other word it never returns. *)
Theorem writelock_alone (fuel : nat) (l : WT_RWLOCK) :
  __wt_writelock fuel l
  = if writers l =? next l then Some (snd (__wt_try_writelock l)) else None.
Proof.
  destruct (Z.eqb_spec (writers l) (next l)) as [H|H].
  - apply writelock_served, H.
  - apply writelock_blocked, H.
Qed.

(** X3: a caller alone gets the read lock from [__wt_readlock_spin] exactly
    when [readers == next], at its first try; on any other word every try
    is refused and leaves the word as it is, so the loop never ends. *)
Theorem readlock_spin_alone (fuel : nat) (l : WT_RWLOCK) :
  __wt_readlock_spin fuel l
  = if readers l =? next l then Some (snd (__wt_try_readlock l)) else None.
Proof.
  destruct (Z.eqb_spec (readers l) (next l)) as [H|H].
  - destruct fuel; cbn [__wt_readlock_spin];
      rewrite (try_readlock_free l H); reflexivity.
  - apply readlock_spin_blocked, H.
Qed.

(** ** Holding the lock, one caller *)

Lemma try_writelock_free_fields (l : WT_RWLOCK) :
  writers l = next l ->
  writers (snd (__wt_try_writelock l)) = writers l /\
  readers (snd (__wt_try_writelock l)) = readers l /\
  next (snd (__wt_try_writelock l)) = u16 (next l + 1) /\
  writers_active (snd (__wt_try_writelock l)) = u16 (writers_active l + 1).
Proof.
  intros H. rewrite (try_writelock_free l H). cbn [snd].
  autorewrite with word. auto.
Qed.

Lemma try_readlock_free_fields (l : WT_RWLOCK) :
  readers l = next l ->
  writers (snd (__wt_try_readlock l)) = writers l /\
  readers (snd (__wt_try_readlock l)) = u16 (next l + 1) /\
  next (snd (__wt_try_readlock l)) = u16 (next l + 1) /\
  writers_active (snd (__wt_try_readlock l)) = writers_active l.
Proof.
  intros H. rewrite (try_readlock_free l H). cbn [snd].
  autorewrite with word. unfold u16, B16. repeat split; auto; lia.
Qed.

Lemma u16_succ_neq (v : Z) : 0 <= v < 65536 -> v <> u16 (v + 1).
Proof. unfold u16, B16. lia. Qed.

(** X4: the write lock is not re-entrant.  Once a caller alone has taken
    the write lock of a free lock, each of its further requests is refused
    or never returns: both tries return [EBUSY] and leave the word as it
    is, and [__wt_readlock], [__wt_readlock_spin] and [__wt_writelock] spin
    whatever the fuel. *)
Theorem write_not_reentrant (fuel : nat) (l : WT_RWLOCK) :
  writers l = next l -> readers l = next l ->
  __wt_try_readlock (snd (__wt_try_writelock l))
  = (EBUSY, snd (__wt_try_writelock l)) /\
  __wt_try_writelock (snd (__wt_try_writelock l))
  = (EBUSY, snd (__wt_try_writelock l)) /\
  __wt_readlock fuel (snd (__wt_try_writelock l)) = None /\
  __wt_readlock_spin fuel (snd (__wt_try_writelock l)) = None /\
  __wt_writelock fuel (snd (__wt_try_writelock l)) = None.
Proof.
  intros Hw Hr.
  destruct (try_writelock_free_fields l Hw) as (Hw1 & Hr1 & Hn1 & _).
  pose proof (u16_succ_neq _ (next_range l)) as Hne.
  set (l1 := snd (__wt_try_writelock l)) in *.
  assert (Hrn : readers l1 <> next l1) by congruence.
  assert (Hwn : writers l1 <> next l1) by congruence.
  repeat split.
  - apply try_readlock_held, Hrn.
  - apply try_writelock_held, Hwn.
  - apply readlock_blocked, Hrn.
  - apply readlock_spin_blocked, Hrn.
  - apply writelock_blocked, Hwn.
Qed.

(** A free lock whose counters are about to wrap. *)
Lemma write_not_reentrant_witness :
  writers 281474976710655 = next 281474976710655 /\
  readers 281474976710655 = next 281474976710655 /\
  __wt_writelock 5 (snd (__wt_try_writelock 281474976710655)) = None.
Proof.
  split; [reflexivity|]. split; [reflexivity|].
  apply (write_not_reentrant 5 281474976710655); reflexivity.
Defined.

(** X5: a read lock cannot be upgraded, and is shared.  Once a caller
    alone has taken the read lock of a free lock, [__wt_try_writelock]
    returns [EBUSY] on an unchanged word and [__wt_writelock] never returns,
    while a second read request is granted at once, by the try as by the
    blocking call. *)
Theorem read_no_upgrade (fuel : nat) (l : WT_RWLOCK) :
  writers l = next l -> readers l = next l ->
  __wt_try_writelock (snd (__wt_try_readlock l))
  = (EBUSY, snd (__wt_try_readlock l)) /\
  __wt_writelock fuel (snd (__wt_try_readlock l)) = None /\
  fst (__wt_try_readlock (snd (__wt_try_readlock l))) = 0 /\
  __wt_readlock fuel (snd (__wt_try_readlock l))
  = Some (snd (__wt_try_readlock (snd (__wt_try_readlock l)))).
Proof.
  intros Hw Hr.
  destruct (try_readlock_free_fields l Hr) as (Hw1 & Hr1 & Hn1 & _).
  pose proof (u16_succ_neq _ (next_range l)) as Hne.
  set (l1 := snd (__wt_try_readlock l)) in *.
  assert (Hrn : readers l1 = next l1) by congruence.
  assert (Hwn : writers l1 <> next l1) by congruence.
  repeat split.
  - apply try_writelock_held, Hwn.
  - apply writelock_blocked, Hwn.
  - rewrite (try_readlock_free l1 Hrn). reflexivity.
  - apply readlock_served, Hrn.
Qed.

Lemma read_no_upgrade_witness :
  writers 281474976710655 = next 281474976710655 /\
  readers 281474976710655 = next 281474976710655 /\
  __wt_writelock 5 (snd (__wt_try_readlock 281474976710655)) = None.
Proof.
  split; [reflexivity|]. split; [reflexivity|].
  apply (read_no_upgrade 5 281474976710655); reflexivity.
Defined.

(** Two words with the same four counters and the same bits above them
    are equal. *)
Lemma word_ext (a b : WT_RWLOCK) :
  writers a = writers b -> readers a = readers b -> next a = next b ->
  writers_active a = writers_active b ->
  a / 18446744073709551616 = b / 18446744073709551616 ->
  a = b.
Proof. word_solve. Qed.

Lemma high_set_writers (l : WT_RWLOCK) (v : Z) :
  set_writers l v / 18446744073709551616 = l / 18446744073709551616.
Proof. word_solve. Qed.

Lemma high_set_readers (l : WT_RWLOCK) (v : Z) :
  set_readers l v / 18446744073709551616 = l / 18446744073709551616.
Proof. word_solve. Qed.

Lemma high_set_next (l : WT_RWLOCK) (v : Z) :
  set_next l v / 18446744073709551616 = l / 18446744073709551616.
Proof. word_solve. Qed.

Lemma high_set_writers_active (l : WT_RWLOCK) (v : Z) :
  set_writers_active l v / 18446744073709551616 = l / 18446744073709551616.
Proof. word_solve. Qed.

Lemma high_set_i_wr (l : WT_RWLOCK) (v : Z) :
  set_i_wr l v / 18446744073709551616 = l / 18446744073709551616.
Proof. word_solve. Qed.

(** X6: on a free lock a read pair and a write pair have the same net
    effect.  [__wt_try_readlock] followed by [__wt_readunlock] and
    [__wt_try_writelock] followed by [__wt_writeunlock] leave the same
    word: the three ticket counters one higher (modulo 2^16) and
    [writers_active] as it was; so the lock is free again. *)
Theorem lock_unlock_pairs (l : WT_RWLOCK) :
  writers l = next l -> readers l = next l ->
  __wt_readunlock (snd (__wt_try_readlock l))
  = __wt_writeunlock (snd (__wt_try_writelock l)) /\
  writers (__wt_readunlock (snd (__wt_try_readlock l)))
  = (writers l + 1) mod 65536 /\
  readers (__wt_readunlock (snd (__wt_try_readlock l)))
  = (readers l + 1) mod 65536 /\
  next (__wt_readunlock (snd (__wt_try_readlock l)))
  = (next l + 1) mod 65536 /\
  writers_active (__wt_readunlock (snd (__wt_try_readlock l)))
  = writers_active l.
Proof.
  intros Hw Hr.
  rewrite (try_readlock_free l Hr), (try_writelock_free l Hw). cbn [snd].
  unfold __wt_readunlock, __wt_writeunlock, writeunlock_store,
    __wt_atomic_add16_writers, __wt_atomic_sub16_writers_active.
  pose proof (writers_active_range l) as Ra.
  pose proof (next_range l) as Rn.
  split.
  - apply word_ext; autorewrite with word;
      repeat first [ rewrite high_set_i_wr | rewrite high_set_writers
                   | rewrite high_set_readers | rewrite high_set_next
                   | rewrite high_set_writers_active ];
      rewrite ?Hw, ?Hr; unfold u16, B16; try reflexivity; lia.
  - autorewrite with word. rewrite Hr. unfold u16, B16.
    repeat split; auto; lia.
Qed.

Lemma lock_unlock_pairs_witness :
  writers 281474976710655 = next 281474976710655 /\
  readers 281474976710655 = next 281474976710655 /\
  __wt_readunlock (snd (__wt_try_readlock 281474976710655))
  = __wt_writeunlock (snd (__wt_try_writelock 281474976710655)).
Proof.
  split; [reflexivity|]. split; [reflexivity|].
  apply (lock_unlock_pairs 281474976710655); reflexivity.
Defined.

(** ** What the fields count *)

Lemma step_pc_wactive (c : call) (p : pc) (l : WT_RWLOCK) :
  match step_pc c p l with
  | (p', l', _) =>
      writers_active l'
      = (writers_active l + Z.b2z (is_wactive p') - Z.b2z (is_wactive p))
          mod 65536
  end.
Proof.
  pose proof (writers_active_range l) as Ra.
  destruct p; cbn [step_pc].
  - destruct c; cbn [__wt_atomic_fetch_add16_next is_wactive Z.b2z];
      autorewrite with word; lia.
  - destruct (try_readlock_from_cases old l)
      as [(_ & <- & l' & -> & _ & _ & _ & Ha)|[_ ->]];
      cbn [Z.eqb EBUSY is_wactive Z.b2z]; lia.
  - destruct (try_readlock_from_cases old l)
      as [(_ & <- & l' & -> & _ & _ & _ & Ha)|[_ ->]];
      cbn [Z.eqb EBUSY is_wactive Z.b2z]; lia.
  - cbn [is_wactive Z.b2z]; lia.
  - cbn [is_wactive Z.b2z]; lia.
  - destruct (negb (ticket =? readers l)); cbn [is_wactive Z.b2z]; lia.
  - cbn [is_wactive Z.b2z]; lia.
  - cbn [is_wactive Z.b2z]. autorewrite with word. lia.
  - cbn [is_wactive Z.b2z]. unfold __wt_readunlock, __wt_atomic_add16_writers.
    autorewrite with word. lia.
  - destruct (try_writelock_from_cases old l)
      as [(_ & <- & l' & -> & _ & _ & _ & Ha)|[_ ->]];
      cbn [Z.eqb EBUSY is_wactive Z.b2z]; [|lia].
    rewrite Ha. unfold u16, B16. lia.
  - cbn [is_wactive Z.b2z]. unfold __wt_atomic_add16_writers_active.
    autorewrite with word. unfold u16, B16. lia.
  - destruct (negb (ticket =? writers l)); cbn [is_wactive Z.b2z]; lia.
  - cbn [is_wactive Z.b2z]. unfold __wt_atomic_sub16_writers_active.
    autorewrite with word. unfold u16, B16. lia.
  - cbn [is_wactive Z.b2z]; lia.
  - cbn [is_wactive Z.b2z].
    destruct (writeunlock_store_frame new l) as (_ & -> & _). lia.
Qed.

Lemma wactive_step (e : nat * call) (s : sys) :
  writers_active (lock s) = count is_wactive (thr s) mod 65536 ->
  writers_active (lock (step e s))
  = count is_wactive (thr (step e s)) mod 65536.
Proof.
  intros H. destruct e as [i c]. unfold step.
  destruct (nth_error (thr s) i) as [p|] eqn:Hi; [|assumption].
  pose proof (step_pc_wactive c p (lock s)) as Hs.
  destruct (step_pc c p (lock s)) as [[p' l'] [[dn dr] dw]].
  cbn [move lock thr]. rewrite (count_upd _ _ _ _ _ Hi), Hs, H.
  destruct (is_wactive p'), (is_wactive p); cbn [Z.b2z]; lia.
Qed.

Lemma wactive_run (sched : list (nat * call)) (s : sys) :
  writers_active (lock s) = count is_wactive (thr s) mod 65536 ->
  writers_active (lock (run sched s))
  = count is_wactive (thr (run sched s)) mod 65536.
Proof.
  revert s. induction sched as [|e sched IH]; intros s Hs; cbn; auto.
  apply IH, wactive_step, Hs.
Qed.

(** X7: [writers_active] counts the active writers.  In every state of
    every interleaving, for any number of threads, the field equals, modulo
    2^16, the number of writers between the add of [__wt_writelock] (or a
    successful [__wt_try_writelock]) and the subtraction of
    [__wt_writeunlock]; no other step changes it.  With fewer than 65536
    threads it is that number. *)
Theorem writers_active_counts (n : nat) (sched : list (nat * call)) :
  writers_active (lock (run sched (init n)))
  = count is_wactive (thr (run sched (init n))) mod 65536 /\
  (Z.of_nat n < 65536 ->
   writers_active (lock (run sched (init n)))
   = count is_wactive (thr (run sched (init n)))).
Proof.
  assert (H : writers_active (lock (run sched (init n)))
              = count is_wactive (thr (run sched (init n))) mod 65536).
  { apply wactive_run. cbn [init lock thr].
    rewrite count_repeat by reflexivity. reflexivity. }
  split; [exact H|]. intros Hn. rewrite H.
  pose proof (count_range is_wactive (thr (run sched (init n)))) as R.
  rewrite length_run in R. cbn [init thr] in R. rewrite repeat_length in R.
  lia.
Qed.

(** Two threads: one writer waits behind another. *)
Lemma writers_active_counts_witness :
  Z.of_nat 2 < 65536 /\
  writers_active
    (lock (run [(0, TRY_WRITELOCK); (0, TRY_WRITELOCK); (1, WRITELOCK);
                (1, WRITELOCK); (1, WRITELOCK)]%nat (init 2)))
  = count is_wactive
      (thr (run [(0, TRY_WRITELOCK); (0, TRY_WRITELOCK); (1, WRITELOCK);
                 (1, WRITELOCK); (1, WRITELOCK)]%nat (init 2))).
Proof.
  split; [reflexivity|].
  apply (writers_active_counts 2
           [(0, TRY_WRITELOCK); (0, TRY_WRITELOCK); (1, WRITELOCK);
            (1, WRITELOCK); (1, WRITELOCK)]%nat).
  reflexivity.
Defined.

(** X8: the ticket counters count the threads.  With fewer than 65536
    threads, in every state of every interleaving [readers - writers]
    (modulo 2^16) is the number of threads that hold the read lock, and
    [next - readers] (modulo 2^16) is the number of threads whose ticket
    [readers] has not passed: the waiting threads, a reader between its
    grant and its increment, and the writer that holds the lock. *)
Theorem counters_count (n : nat) (sched : list (nat * call)) :
  Z.of_nat n < 65536 ->
  (readers (lock (run sched (init n)))
   - writers (lock (run sched (init n)))) mod 65536
  = count is_holdr (thr (run sched (init n))) /\
  (next (lock (run sched (init n)))
   - readers (lock (run sched (init n)))) mod 65536
  = count is_queued (thr (run sched (init n))).
Proof.
  intros Hn. pose proof (inv_reachable n sched Hn) as Hinv.
  pose proof (length_reachable n sched) as Hlen.
  set (s := run sched (init n)) in *.
  destruct Hinv as [Ht Iw Ir In Ih Iq Ipos Idis Iloc].
  pose proof (count_classes_le (thr s)) as Hle.
  pose proof (count_range is_queued (thr s)) as Rq.
  pose proof (count_range is_holdr (thr s)) as Rh.
  rewrite Iw, Ir, In. split; lia.
Qed.

Lemma counters_count_witness :
  Z.of_nat 2 < 65536 /\
  (next (lock (run handover_sched (init 2)))
   - readers (lock (run handover_sched (init 2)))) mod 65536
  = count is_queued (thr (run handover_sched (init 2))).
Proof.
  split; [reflexivity|].
  apply (counters_count 2 handover_sched). reflexivity.
Defined.

(** ** Releases of readers *)

Lemma upd_comm (i j : nat) (x y : pc) (ps : list pc) :
  i <> j -> upd i x (upd j y ps) = upd j y (upd i x ps).
Proof.
  revert i j; induction ps as [|a ps IH]; intros [|i] [|j] Hij;
    unfold upd; fold upd; try reflexivity; try congruence.
  rewrite IH by congruence. reflexivity.
Qed.

Lemma step_readunlock (s : sys) (i : nat) (c : call) :
  nth_error (thr s) i = Some HoldR ->
  step (i, c) s = move s i Idle (__wt_readunlock (lock s)) 0 0 1.
Proof. intros Hi. unfold step. rewrite Hi. reflexivity. Qed.

(** X9: readers may release in any order.  For two threads that hold the
    read lock, in any state, the two releases commute: both orders give the
    same word, with [writers] two higher (modulo 2^16) and the other fields
    untouched, the same threads and the same history. *)
Theorem readunlock_commute (s : sys) (i j : nat) (c c' : call) :
  i <> j ->
  nth_error (thr s) i = Some HoldR ->
  nth_error (thr s) j = Some HoldR ->
  run [(i, c); (j, c')] s = run [(j, c'); (i, c)] s /\
  writers (lock (run [(i, c); (j, c')] s))
  = (writers (lock s) + 2) mod 65536 /\
  readers (lock (run [(i, c); (j, c')] s)) = readers (lock s) /\
  next (lock (run [(i, c); (j, c')] s)) = next (lock s) /\
  writers_active (lock (run [(i, c); (j, c')] s)) = writers_active (lock s).
Proof.
  intros Hij Hi Hj. cbn [run fold_left].
  rewrite (step_readunlock s i c Hi), (step_readunlock s j c' Hj).
  rewrite (step_readunlock _ j c'), (step_readunlock _ i c);
    try (cbn [move thr]; rewrite nth_error_upd_other; auto).
  cbn [move lock thr g_next g_readers g_writers].
  split.
  - unfold move. cbn [lock thr g_next g_readers g_writers].
    rewrite (upd_comm j i) by auto. reflexivity.
  - unfold __wt_readunlock, __wt_atomic_add16_writers.
    autorewrite with word. unfold u16, B16. repeat split; auto; lia.
Qed.

(** Three readers hold the lock; the second and the third release. *)
Lemma readunlock_commute_witness :
  run [(1, READLOCK); (2, READLOCK)]%nat
    (run (try_read_all 3) (init 3))
  = run [(2, READLOCK); (1, READLOCK)]%nat
      (run (try_read_all 3) (init 3)).
Proof.
  apply (readunlock_commute (run (try_read_all 3) (init 3)) 1 2
           READLOCK READLOCK); [discriminate|reflexivity|reflexivity].
Defined.

(** ** The tries, among other threads *)

Lemma count_none (f : pc -> bool) (ps : list pc) :
  (forall j p, nth_error ps j = Some p -> f p = false) -> count f ps = 0.
Proof.
  intros H. pose proof (count_range f ps) as R.
  destruct (Z.eq_dec (count f ps) 0) as [E|E]; [exact E|].
  destruct (count_ex f ps) as (j & p & Hj & Hp); [lia|].
  rewrite (H _ _ Hj) in Hp. discriminate.
Qed.

Lemma inv_queued_free (s : sys) :
  inv s -> Z.of_nat (length (thr s)) < 65536 ->
  (count is_queued (thr s) = 0 <-> readers (lock s) = next (lock s)).
Proof.
  intros [Ht Iw Ir In Ih Iq Ipos Idis Iloc] Hsmall.
  pose proof (count_classes_le (thr s)).
  pose proof (count_range is_queued (thr s)).
  pose proof (count_range is_holdr (thr s)).
  rewrite Ir, In. split; lia.
Qed.

Lemma inv_ticket_free (s : sys) :
  inv s -> Z.of_nat (length (thr s)) < 65536 ->
  (count has_ticket (thr s) = 0 <-> writers (lock s) = next (lock s)).
Proof.
  intros [Ht Iw Ir In Ih Iq Ipos Idis Iloc] Hsmall.
  pose proof (count_classes (thr s)).
  pose proof (count_classes_le (thr s)).
  pose proof (count_range is_queued (thr s)).
  pose proof (count_range is_holdr (thr s)).
  rewrite Iw, In. split; lia.
Qed.

(** A thread that went to [q] and back to [p] without touching the word
    leaves the state as it was. *)
Lemma move_back (s : sys) (i : nat) (p q : pc) :
  nth_error (thr s) i = Some p ->
  move (move s i q (lock s) 0 0 0) i p (lock s) 0 0 0 = s.
Proof.
  intros Hi. unfold move. cbn [lock thr g_next g_readers g_writers].
  rewrite upd_upd, (upd_same _ _ _ Hi), !Z.add_0_r. destruct s; reflexivity.
Qed.

Lemma run_try_read (s : sys) (i : nat) :
  nth_error (thr s) i = Some Idle ->
  run (try_read_steps i) s
  = let (ret, l') := __wt_try_readlock (lock s) in
    if ret =? 0
    then move (move s i (TryR_cas (lock s)) (lock s) 0 0 0) i HoldR l' 1 1 0
    else move (move s i (TryR_cas (lock s)) (lock s) 0 0 0) i Idle l' 0 0 0.
Proof.
  intros Hi. unfold try_read_steps. cbn [run fold_left].
  unfold step at 2. rewrite Hi. cbn [step_pc].
  unfold step. cbn [move thr lock].
  rewrite (nth_error_upd_same _ _ _ _ Hi). cbn [step_pc].
  unfold __wt_try_readlock.
  destruct (__wt_try_readlock_from (lock s) (lock s)) as [ret l'].
  destruct (ret =? 0); reflexivity.
Qed.

Lemma run_try_write (s : sys) (i : nat) :
  nth_error (thr s) i = Some Idle ->
  run (try_write_steps i) s
  = let (ret, l') := __wt_try_writelock (lock s) in
    if ret =? 0
    then move (move s i (TryW_cas (lock s)) (lock s) 0 0 0) i
           (HoldW (next (lock s))) l' 1 0 0
    else move (move s i (TryW_cas (lock s)) (lock s) 0 0 0) i Idle l' 0 0 0.
Proof.
  intros Hi. unfold try_write_steps. cbn [run fold_left].
  unfold step at 2. rewrite Hi. cbn [step_pc].
  unfold step. cbn [move thr lock].
  rewrite (nth_error_upd_same _ _ _ _ Hi). cbn [step_pc].
  unfold __wt_try_writelock.
  destruct (__wt_try_writelock_from (lock s) (lock s)) as [ret l'].
  destruct (ret =? 0); reflexivity.
Qed.

(** X10: when [__wt_try_readlock] succeeds.  With fewer than 65536
    threads, in any state of any interleaving, the try of an idle thread
    (its two steps not interrupted) takes the read lock if [readers] has
    passed every ticket handed out: no thread waits, no writer holds the
    lock, and no reader is between the test that grants it its ticket and
    its increment of [readers]; the number of readers that hold the lock
    does not matter.  If some thread is in one of these three cases, the
    try is refused and leaves the whole state as it was. *)
Theorem try_read_outcome (n : nat) (sched : list (nat * call)) (i : nat) :
  Z.of_nat n < 65536 ->
  nth_error (thr (run sched (init n))) i = Some Idle ->
  let s := run sched (init n) in
  let s' := run (try_read_steps i) s in
  ((forall j p, nth_error (thr s) j = Some p -> is_queued p = false) ->
   nth_error (thr s') i = Some HoldR /\
   writers (lock s') = writers (lock s) /\
   readers (lock s') = (next (lock s) + 1) mod 65536 /\
   next (lock s') = (next (lock s) + 1) mod 65536) /\
  ((exists j p, nth_error (thr s) j = Some p /\ is_queued p = true) ->
   s' = s).
Proof.
  intros Hn Hi s s'.
  pose proof (inv_reachable n sched Hn) as Hinv. fold s in Hinv, Hi.
  assert (Hsmall : Z.of_nat (length (thr s)) < 65536)
    by (unfold s; rewrite length_reachable; exact Hn).
  pose proof (inv_queued_free s Hinv Hsmall) as Hfree.
  unfold s'. rewrite (run_try_read s i Hi). split.
  - intros Hnone. apply count_none in Hnone. apply Hfree in Hnone.
    destruct (try_readlock_free_fields _ Hnone) as (Hw1 & Hr1 & Hn1 & _).
    rewrite (try_readlock_free _ Hnone) in *. cbn [snd] in *.
    cbn [Z.eqb move thr lock].
    split; [|unfold u16, B16 in *; auto].
    eapply nth_error_upd_same, nth_error_upd_same, Hi.
  - intros (j & p & Hj & Hp).
    pose proof (count_mem _ _ _ _ Hj Hp) as H1.
    rewrite try_readlock_held by (intros E; apply Hfree in E; lia).
    cbn [Z.eqb EBUSY]. apply move_back, Hi.
Qed.

(** Two threads: thread 1 tries while thread 0 holds the write lock. *)
Lemma try_read_outcome_witness :
  Z.of_nat 2 < 65536 /\
  nth_error (thr (run (try_write_steps 0) (init 2))) 1 = Some Idle /\
  run (try_read_steps 1) (run (try_write_steps 0) (init 2))
  = run (try_write_steps 0) (init 2).
Proof.
  split; [reflexivity|]. split; [reflexivity|].
  apply (try_read_outcome 2 (try_write_steps 0) 1);
    [reflexivity|reflexivity|].
  exists O, (HoldW 0). split; reflexivity.
Defined.

(** X11: when [__wt_try_writelock] succeeds.  With fewer than 65536
    threads, in any state of any interleaving, the try of an idle thread
    (its two steps not interrupted) takes the write lock if no thread owns
    a ticket, that is nobody holds the lock or waits for it; if some thread
    does, the try is refused and leaves the whole state as it was. *)
Theorem try_write_outcome (n : nat) (sched : list (nat * call)) (i : nat) :
  Z.of_nat n < 65536 ->
  nth_error (thr (run sched (init n))) i = Some Idle ->
  let s := run sched (init n) in
  let s' := run (try_write_steps i) s in
  ((forall j p, nth_error (thr s) j = Some p -> has_ticket p = false) ->
   nth_error (thr s') i = Some (HoldW (next (lock s))) /\
   writers (lock s') = writers (lock s) /\
   readers (lock s') = readers (lock s) /\
   next (lock s') = (next (lock s) + 1) mod 65536) /\
  ((exists j p, nth_error (thr s) j = Some p /\ has_ticket p = true) ->
   s' = s).
Proof.
  intros Hn Hi s s'.
  pose proof (inv_reachable n sched Hn) as Hinv. fold s in Hinv, Hi.
  assert (Hsmall : Z.of_nat (length (thr s)) < 65536)
    by (unfold s; rewrite length_reachable; exact Hn).
  pose proof (inv_ticket_free s Hinv Hsmall) as Hfree.
  unfold s'. rewrite (run_try_write s i Hi). split.
  - intros Hnone. apply count_none in Hnone. apply Hfree in Hnone.
    destruct (try_writelock_free_fields _ Hnone) as (Hw1 & Hr1 & Hn1 & _).
    rewrite (try_writelock_free _ Hnone) in *. cbn [snd] in *.
    cbn [Z.eqb move thr lock].
    split; [|unfold u16, B16 in *; auto].
    eapply nth_error_upd_same, nth_error_upd_same, Hi.
  - intros (j & p & Hj & Hp).
    pose proof (count_mem _ _ _ _ Hj Hp) as H1.
    rewrite try_writelock_held by (intros E; apply Hfree in E; lia).
    cbn [Z.eqb EBUSY]. apply move_back, Hi.
Qed.

(** Two threads: thread 1 tries while thread 0 holds the read lock. *)
Lemma try_write_outcome_witness :
  Z.of_nat 2 < 65536 /\
  nth_error (thr (run (try_read_steps 0) (init 2))) 1 = Some Idle /\
  run (try_write_steps 1) (run (try_read_steps 0) (init 2))
  = run (try_read_steps 0) (init 2).
Proof.
  split; [reflexivity|]. split; [reflexivity|].
  apply (try_write_outcome 2 (try_read_steps 0) 1);
    [reflexivity|reflexivity|].
  exists O, HoldR. split; reflexivity.
Defined.

(** ** Service in ticket order *)

Lemma granted_ticket (l : WT_RWLOCK) (p : pc) (t : Z) :
  pc_ok l p -> granted p = true -> qticket p = Some t -> t = readers l.
Proof.
  destruct p; cbn [granted qticket pc_ok]; try discriminate;
    intros Hok _ Ht; injection Ht as <-; tauto.
Qed.

(** X12: the thread that is served owns the oldest ticket.  With fewer than
    65536 threads, in every state of every interleaving, a thread whose
    ticket has been served (a reader at its increment of [readers], or the
    writer that holds the lock) owns the ticket [readers] shows, and the
    ticket of every other thread not passed yet comes after it, by 1 up to
    the number of such threads minus 1 (modulo 2^16). *)
Theorem served_is_oldest (n : nat) (sched : list (nat * call))
    (i j : nat) (p q : pc) (t t' : Z) :
  Z.of_nat n < 65536 ->
  i <> j ->
  nth_error (thr (run sched (init n))) i = Some p ->
  nth_error (thr (run sched (init n))) j = Some q ->
  granted p = true -> qticket p = Some t -> qticket q = Some t' ->
  t = readers (lock (run sched (init n))) /\
  1 <= (t' - t) mod 65536 < count is_queued (thr (run sched (init n))).
Proof.
  intros Hn Hij Hi Hj Hg Ht Ht'.
  pose proof (inv_reachable n sched Hn) as Hinv.
  set (s := run sched (init n)) in *.
  pose proof (granted_ticket _ _ _ (inv_local _ Hinv _ _ Hi) Hg Ht) as Hr.
  split; [exact Hr|].
  destruct (inv_pos _ Hinv _ _ _ Hj Ht') as [R' P'].
  destruct (inv_pos _ Hinv _ _ _ Hi Ht) as [R _].
  assert (t' <> t).
  { intros ->. apply Hij. eapply inv_distinct; eauto. }
  rewrite <- Hr in P'. lia.
Qed.

(** Two threads: a reader waits behind the writer that holds the lock. *)
Lemma served_is_oldest_witness :
  0 = readers (lock (run (try_write_steps 0 ++ [(1%nat, READLOCK)])
                       (init 2))) /\
  1 <= (1 - 0) mod 65536
    < count is_queued
        (thr (run (try_write_steps 0 ++ [(1%nat, READLOCK)]) (init 2))).
Proof.
  apply (served_is_oldest 2 (try_write_steps 0 ++ [(1%nat, READLOCK)])
           0 1 (HoldW 0) (R_wait 1 0) 0 1);
    try reflexivity. discriminate.
Defined.

Lemma step_at (s : sys) (i : nat) (c : call) (p : pc) :
  nth_error (thr s) i = Some p ->
  step (i, c) s
  = match step_pc c p (lock s) with
    | (p', l', (dn, dr, dw)) => move s i p' l' dn dr dw
    end.
Proof. intros Hi. unfold step. rewrite Hi. reflexivity. Qed.

(** A thread without a ticket that gets one takes the value of [next]. *)
Lemma step_pc_new_ticket (c : call) (p : pc) (l : WT_RWLOCK) (t : Z) :
  has_ticket p = false ->
  qticket (fst (fst (step_pc c p l))) = Some t ->
  t = next l /\ next (snd (fst (step_pc c p l))) = u16 (next l + 1).
Proof.
  destruct p; cbn [has_ticket is_queued qticket is_holdr orb];
    try discriminate; intros _; cbn [step_pc].
  - destruct c; cbn [__wt_atomic_fetch_add16_next fst snd qticket];
      try discriminate; intros Ht; injection Ht as <-;
      autorewrite with word; auto.
  - destruct (__wt_try_readlock_from old l) as [ret l'].
    destruct (ret =? 0); cbn [fst qticket]; discriminate.
  - destruct (__wt_try_readlock_from old l) as [ret l'].
    destruct (ret =? 0); cbn [fst qticket]; discriminate.
  - destruct (try_writelock_from_cases old l)
      as [(_ & <- & l' & -> & _ & _ & Hn & _)|[_ ->]];
      cbn [Z.eqb EBUSY fst snd qticket]; [|intros Ht; discriminate Ht].
    intros Ht; injection Ht as <-. auto.
Qed.

(** X13: a new ticket is the last of the queue.  With fewer than 65536
    threads, in any state of any interleaving, when a step gives a ticket to
    a thread that had none (the fetch-and-add of a blocking call, or the
    compare-and-swap of a successful [__wt_try_writelock]), the ticket is
    the value of [next], [next] moves one further (modulo 2^16), and the
    ticket of every thread not passed yet is nearer to [readers] than the
    new one: nobody is overtaken. *)
Theorem new_ticket_is_last (n : nat) (sched : list (nat * call))
    (e : nat * call) (i : nat) (p p' : pc) (t : Z) :
  Z.of_nat n < 65536 ->
  nth_error (thr (run sched (init n))) i = Some p ->
  has_ticket p = false ->
  nth_error (thr (step e (run sched (init n)))) i = Some p' ->
  qticket p' = Some t ->
  t = next (lock (run sched (init n))) /\
  next (lock (step e (run sched (init n)))) = (t + 1) mod 65536 /\
  forall j q t',
    nth_error (thr (run sched (init n))) j = Some q ->
    qticket q = Some t' ->
    (t' - readers (lock (run sched (init n)))) mod 65536
    < (t - readers (lock (run sched (init n)))) mod 65536.
Proof.
  intros Hn Hi Hp Hi' Ht.
  pose proof (inv_reachable n sched Hn) as Hinv.
  set (s := run sched (init n)) in *.
  destruct e as [k c].
  assert (Hq : qticket p = None).
  { apply orb_false_elim in Hp as [Hp _]. unfold is_queued in Hp.
    destruct (qticket p); [discriminate|reflexivity]. }
  destruct (Nat.eq_dec i k) as [<-|Hne].
  2:{ rewrite nth_error_step_other in Hi' by assumption. congruence. }
  rewrite (step_at s i c p Hi) in *.
  pose proof (step_pc_new_ticket c p (lock s) t Hp) as Hnew.
  destruct (step_pc c p (lock s)) as [[p'' l'] [[dn dr] dw]].
  cbn [move thr lock fst snd] in *.
  rewrite (nth_error_upd_same _ _ _ _ Hi) in Hi'. injection Hi' as ->.
  destruct (Hnew Ht) as [-> Hn']. split; [reflexivity|].
  split; [exact Hn'|].
  intros j q t' Hj Ht'.
  destruct (inv_pos _ Hinv _ _ _ Hj Ht') as [_ P'].
  destruct Hinv as [Hl Iw Ir In Ih Iq Ipos Idis Iloc].
  pose proof (count_classes_lt _ _ _ Hi Hp).
  pose proof (count_range is_queued (thr s)).
  pose proof (count_range is_holdr (thr s)).
  rewrite In, Ir in *. lia.
Qed.

(** Two threads: a reader asks while a writer holds the lock. *)
Lemma new_ticket_is_last_witness :
  1 = next (lock (run (try_write_steps 0) (init 2))) /\
  next (lock (step (1%nat, READLOCK) (run (try_write_steps 0) (init 2))))
  = (1 + 1) mod 65536.
Proof.
  destruct (new_ticket_is_last 2 (try_write_steps 0) (1%nat, READLOCK) 1
              Idle (R_wait 1 0) 1) as (H1 & H2 & _);
    try reflexivity.
  split; assumption.
Defined.

(** ** The blocking calls, among other threads *)

(** A reader whose ticket is not served stays in its loop. *)
Lemma run_test_read_blocked (s : sys) (i : nat) (t c : Z) (cl : call)
    (k : nat) :
  nth_error (thr s) i = Some (R_wait t c) ->
  c = int_wrap c ->
  t <> readers (lock s) ->
  run (repeat (i, cl) k) s
  = mkSys (lock s) (upd i (R_wait t (int_wrap (c + Z.of_nat k))) (thr s))
      (g_next s) (g_readers s) (g_writers s).
Proof.
  revert s c. induction k as [|k IH]; intros s c Hi Hc Ht.
  - cbn [repeat run fold_left Z.of_nat]. rewrite Z.add_0_r, <- Hc.
    rewrite (upd_same _ _ _ Hi). destruct s; reflexivity.
  - cbn [repeat run fold_left].
    assert (E : step (i, cl) s
                = move s i (R_wait t (int_incr c)) (lock s) 0 0 0).
    { rewrite (step_at s i cl _ Hi). cbn [step_pc].
      destruct (Z.eqb_spec t (readers (lock s))); [contradiction|].
      reflexivity. }
    rewrite E. change (fold_left _ ?a ?b) with (run a b).
    rewrite (IH _ (int_incr c)).
    + cbn [move lock thr g_next g_readers g_writers].
      unfold int_incr. rewrite upd_upd, !Z.add_0_r, int_wrap_add.
      rewrite Nat2Z.inj_succ.
      replace (c + 1 + Z.of_nat k) with (c + Z.succ (Z.of_nat k)) by lia.
      reflexivity.
    + cbn [move thr]. eapply nth_error_upd_same; eauto.
    + unfold int_incr. symmetry. apply int_wrap_idem.
    + assumption.
Qed.

(** The four steps of [__wt_readlock] on a word with [readers == next]. *)
Lemma run_acquire_read (s : sys) (i : nat) :
  nth_error (thr s) i = Some Idle ->
  readers (lock s) = next (lock s) ->
  thr (run (acquire_read i) s) = upd i HoldR (thr s) /\
  lock (run (acquire_read i) s)
  = set_readers (set_next (lock s) (next (lock s) + 1))
      (readers (set_next (lock s) (next (lock s) + 1)) + 1).
Proof.
  intros Hi Hfree. unfold acquire_read. cbn [repeat run fold_left].
  rewrite (step_at s i READLOCK _ Hi).
  cbn [step_pc __wt_atomic_fetch_add16_next].
  set (l1 := set_next (lock s) (next (lock s) + 1)).
  set (s1 := move s i (R_wait (next (lock s)) 0) l1 1 0 0).
  assert (H1 : nth_error (thr s1) i = Some (R_wait (next (lock s)) 0)).
  { eapply nth_error_upd_same, Hi. }
  rewrite (step_at s1 i READLOCK _ H1). cbn [step_pc].
  replace (next (lock s) =? readers (lock s1)) with true
    by (symmetry; apply Z.eqb_eq; unfold s1, l1; cbn [move lock];
        autorewrite with word; congruence).
  cbn [negb].
  set (s2 := move s1 i (R_load (next (lock s))) (lock s1) 0 0 0).
  assert (H2 : nth_error (thr s2) i = Some (R_load (next (lock s)))).
  { eapply nth_error_upd_same, H1. }
  rewrite (step_at s2 i READLOCK _ H2). cbn [step_pc].
  set (s3 := move s2 i (R_store (next (lock s)) (readers (lock s2)))
               (lock s2) 0 0 0).
  assert (H3 : nth_error (thr s3) i
               = Some (R_store (next (lock s)) (readers (lock s2)))).
  { eapply nth_error_upd_same, H2. }
  rewrite (step_at s3 i READLOCK _ H3). cbn [step_pc].
  unfold s3, s2, s1. cbn [move thr lock]. rewrite !upd_upd. auto.
Qed.

(** X14: [__wt_readlock] among other threads.  With fewer than 65536
    threads, in any state of any interleaving, an idle thread that calls
    [__wt_readlock] and runs alone is granted the lock at its first test if
    [readers] has passed every ticket handed out: no thread waits, no
    writer holds the lock, and no reader is between the test that grants
    it its ticket and its increment of [readers]; the number of readers
    that hold the lock does not matter.  If some thread is in one of these
    three cases, the caller takes its ticket ([next] moves one further), and
    then each of its tests fails: after any number [k] of them it still
    waits, with [pause_cnt] equal to [k] as a C [int], and nothing else has
    changed. *)
Theorem readlock_outcome (n : nat) (sched : list (nat * call)) (i k : nat) :
  Z.of_nat n < 65536 ->
  nth_error (thr (run sched (init n))) i = Some Idle ->
  let s := run sched (init n) in
  ((forall j p, nth_error (thr s) j = Some p -> is_queued p = false) ->
   nth_error (thr (run (acquire_read i) s)) i = Some HoldR /\
   writers (lock (run (acquire_read i) s)) = writers (lock s) /\
   readers (lock (run (acquire_read i) s)) = (next (lock s) + 1) mod 65536 /\
   next (lock (run (acquire_read i) s)) = (next (lock s) + 1) mod 65536) /\
  ((exists j p, nth_error (thr s) j = Some p /\ is_queued p = true) ->
   run ((i, READLOCK) :: repeat (i, READLOCK) k) s
   = mkSys (set_next (lock s) (next (lock s) + 1))
       (upd i (R_wait (next (lock s)) (int_wrap (Z.of_nat k))) (thr s))
       (g_next s + 1) (g_readers s) (g_writers s)).
Proof.
  intros Hn Hi s.
  pose proof (inv_reachable n sched Hn) as Hinv. fold s in Hinv, Hi.
  assert (Hsmall : Z.of_nat (length (thr s)) < 65536)
    by (unfold s; rewrite length_reachable; exact Hn).
  pose proof (inv_queued_free s Hinv Hsmall) as Hfree. split.
  - intros Hnone. apply count_none in Hnone. apply Hfree in Hnone.
    destruct (run_acquire_read s i Hi Hnone) as [Ht Hl].
    rewrite Ht, Hl. autorewrite with word. rewrite Hnone.
    unfold u16, B16. repeat split; auto.
    eapply nth_error_upd_same, Hi.
  - intros (j & p & Hj & Hp).
    pose proof (count_mem _ _ _ _ Hj Hp) as H1.
    cbn [run fold_left]. change (fold_left _ ?a ?b) with (run a b).
    rewrite (step_at s i READLOCK _ Hi).
    cbn [step_pc __wt_atomic_fetch_add16_next].
    rewrite (run_test_read_blocked _ i (next (lock s)) 0 READLOCK k).
    + cbn [move lock thr g_next g_readers g_writers].
      rewrite upd_upd, !Z.add_0_r. reflexivity.
    + cbn [move thr]. eapply nth_error_upd_same, Hi.
    + reflexivity.
    + cbn [move lock]. autorewrite with word.
      intros E. symmetry in E. apply Hfree in E. lia.
Qed.

(** Two threads: thread 1 asks for the read lock while thread 0 holds the
    write lock, and tests five times. *)
Lemma readlock_outcome_witness :
  Z.of_nat 2 < 65536 /\
  nth_error (thr (run (try_write_steps 0) (init 2))) 1 = Some Idle /\
  thr (run ((1%nat, READLOCK) :: repeat (1%nat, READLOCK) 5)
         (run (try_write_steps 0) (init 2)))
  = [HoldW 0; R_wait 1 5].
Proof.
  split; [reflexivity|]. split; [reflexivity|].
  destruct (readlock_outcome 2 (try_write_steps 0) 1 5) as [_ H];
    [reflexivity|reflexivity|].
  rewrite H; [reflexivity|].
  exists O, (HoldW 0). split; reflexivity.
Defined.

(** The three steps of [__wt_writelock] on a word with
    [writers == next]. *)
Lemma run_acquire_write (s : sys) (i : nat) :
  nth_error (thr s) i = Some Idle ->
  writers (lock s) = next (lock s) ->
  thr (run (request_write i ++ test_write i 1) s)
  = upd i (HoldW (next (lock s))) (thr s) /\
  lock (run (request_write i ++ test_write i 1) s)
  = __wt_atomic_add16_writers_active
      (set_next (lock s) (next (lock s) + 1)) 1.
Proof.
  intros Hi Hfree. unfold request_write, test_write.
  cbn [repeat app run fold_left].
  rewrite (step_at s i WRITELOCK _ Hi).
  cbn [step_pc __wt_atomic_fetch_add16_next].
  set (l1 := set_next (lock s) (next (lock s) + 1)).
  set (s1 := move s i (W_add (next (lock s))) l1 1 0 0).
  assert (H1 : nth_error (thr s1) i = Some (W_add (next (lock s)))).
  { eapply nth_error_upd_same, Hi. }
  rewrite (step_at s1 i WRITELOCK _ H1). cbn [step_pc].
  set (s2 := move s1 i (W_wait (next (lock s)) 0)
               (__wt_atomic_add16_writers_active (lock s1) 1) 0 0 0).
  assert (H2 : nth_error (thr s2) i = Some (W_wait (next (lock s)) 0)).
  { eapply nth_error_upd_same, H1. }
  rewrite (step_at s2 i WRITELOCK _ H2). cbn [step_pc].
  replace (next (lock s) =? writers (lock s2)) with true
    by (symmetry; apply Z.eqb_eq; unfold s2, s1, l1; cbn [move lock];
        unfold __wt_atomic_add16_writers_active;
        autorewrite with word; congruence).
  cbn [negb].
  unfold s2, s1. cbn [move thr lock]. rewrite !upd_upd. auto.
Qed.

(** X15: [__wt_writelock] among other threads.  With fewer than 65536
    threads, in any state of any interleaving, an idle thread that calls
    [__wt_writelock] and runs alone is granted the lock at its first test if
    no thread owns a ticket.  If some thread holds the lock or waits for
    it, the caller takes its ticket and counts itself in [writers_active],
    and then each of its tests fails: after any number [k] of them it still
    waits, with [pause_cnt] equal to [k] as a C [int], and nothing else has
    changed. *)
Theorem writelock_outcome (n : nat) (sched : list (nat * call)) (i k : nat) :
  Z.of_nat n < 65536 ->
  nth_error (thr (run sched (init n))) i = Some Idle ->
  let s := run sched (init n) in
  ((forall j p, nth_error (thr s) j = Some p -> has_ticket p = false) ->
   nth_error (thr (run (request_write i ++ test_write i 1) s)) i
   = Some (HoldW (next (lock s))) /\
   writers (lock (run (request_write i ++ test_write i 1) s))
   = writers (lock s) /\
   readers (lock (run (request_write i ++ test_write i 1) s))
   = readers (lock s) /\
   next (lock (run (request_write i ++ test_write i 1) s))
   = (next (lock s) + 1) mod 65536 /\
   writers_active (lock (run (request_write i ++ test_write i 1) s))
   = (writers_active (lock s) + 1) mod 65536) /\
  ((exists j p, nth_error (thr s) j = Some p /\ has_ticket p = true) ->
   run (request_write i ++ test_write i k) s
   = mkSys (__wt_atomic_add16_writers_active
              (set_next (lock s) (next (lock s) + 1)) 1)
       (upd i (W_wait (next (lock s)) (int_wrap (Z.of_nat k))) (thr s))
       (g_next s + 1) (g_readers s) (g_writers s)).
Proof.
  intros Hn Hi s.
  pose proof (inv_reachable n sched Hn) as Hinv. fold s in Hinv, Hi.
  assert (Hsmall : Z.of_nat (length (thr s)) < 65536)
    by (unfold s; rewrite length_reachable; exact Hn).
  pose proof (inv_ticket_free s Hinv Hsmall) as Hfree. split.
  - intros Hnone. apply count_none in Hnone. apply Hfree in Hnone.
    destruct (run_acquire_write s i Hi Hnone) as [Ht Hl].
    rewrite Ht, Hl. unfold __wt_atomic_add16_writers_active.
    autorewrite with word. unfold u16, B16. repeat split; auto.
    eapply nth_error_upd_same, Hi.
  - intros (j & p & Hj & Hp).
    pose proof (count_mem _ _ _ _ Hj Hp) as H1.
    rewrite run_app. unfold request_write, test_write.
    cbn [repeat run fold_left].
    rewrite (step_at s i WRITELOCK _ Hi).
    cbn [step_pc __wt_atomic_fetch_add16_next].
    set (s1 := move s i (W_add (next (lock s)))
                 (set_next (lock s) (next (lock s) + 1)) 1 0 0).
    assert (Hs1 : nth_error (thr s1) i = Some (W_add (next (lock s)))).
    { eapply nth_error_upd_same, Hi. }
    rewrite (step_at s1 i WRITELOCK _ Hs1). cbn [step_pc].
    change (fold_left _ ?a ?b) with (run a b).
    rewrite (run_test_blocked _ i (next (lock s)) 0 WRITELOCK k).
    + unfold s1. cbn [move lock thr g_next g_readers g_writers].
      rewrite !upd_upd, !Z.add_0_r. reflexivity.
    + cbn [move thr]. eapply nth_error_upd_same, Hs1.
    + reflexivity.
    + unfold s1. cbn [move lock]. unfold __wt_atomic_add16_writers_active.
      autorewrite with word.
      intros E. symmetry in E. apply Hfree in E. lia.
Qed.

(** Two threads: thread 1 asks for the write lock while thread 0 holds the
    read lock, and tests five times. *)
Lemma writelock_outcome_witness :
  Z.of_nat 2 < 65536 /\
  nth_error (thr (run (try_read_steps 0) (init 2))) 1 = Some Idle /\
  thr (run (request_write 1 ++ test_write 1 5)
         (run (try_read_steps 0) (init 2)))
  = [HoldR; W_wait 1 5].
Proof.
  split; [reflexivity|]. split; [reflexivity|].
  destruct (writelock_outcome 2 (try_read_steps 0) 1 5) as [_ H];
    [reflexivity|reflexivity|].
  rewrite H; [reflexivity|].
  exists O, HoldR. split; reflexivity.
Defined.

(** ** No deadlock *)

Lemma tickets_length (ps : list pc) :
  Z.of_nat (length (tickets ps)) = count is_queued ps.
Proof.
  induction ps as [|p ps IH]; [reflexivity|].
  unfold count; fold count. unfold is_queued at 1. cbn [tickets].
  destruct (qticket p); cbn [length Z.b2z]; lia.
Qed.

Lemma tickets_In (ps : list pc) (t : Z) :
  In t (tickets ps) <->
  exists j p, nth_error ps j = Some p /\ qticket p = Some t.
Proof.
  induction ps as [|a ps IH]; cbn [tickets].
  - split; [intros []|]. intros ([|j] & p & Hj & _); discriminate.
  - split.
    + intros H. destruct (qticket a) as [u|] eqn:Ha.
      * destruct H as [->|H].
        -- exists O, a. auto.
        -- apply IH in H as (j & p & Hj & Hp). exists (S j), p. auto.
      * apply IH in H as (j & p & Hj & Hp). exists (S j), p. auto.
    + intros ([|j] & p & Hj & Hp); cbn [nth_error] in Hj.
      * injection Hj as ->. rewrite Hp. left; reflexivity.
      * assert (In t (tickets ps)) by (apply IH; eauto).
        destruct (qticket a); [right|]; assumption.
Qed.

Lemma tickets_NoDup (ps : list pc) :
  (forall i j p q t,
     nth_error ps i = Some p -> nth_error ps j = Some q ->
     qticket p = Some t -> qticket q = Some t -> i = j) ->
  NoDup (tickets ps).
Proof.
  induction ps as [|a ps IH]; intros Hd; cbn [tickets]; [constructor|].
  assert (Hps : NoDup (tickets ps)).
  { apply IH. intros i j p q t Hi Hj Hp Hq.
    assert (S i = S j)
      by (apply (Hd (S i) (S j) p q t); assumption).
    congruence. }
  destruct (qticket a) as [u|] eqn:Ha; [|exact Hps].
  constructor; [|exact Hps].
  intros Hin. apply tickets_In in Hin as (j & p & Hj & Hp).
  assert (O = S j)
    by (apply (Hd O (S j) a p u); [reflexivity|assumption..]).
  discriminate.
Qed.

(** Some thread owns the ticket [readers] shows, as soon as a thread has
    not been passed. *)
Lemma inv_head (s : sys) :
  inv s -> 1 <= count is_queued (thr s) ->
  exists j p,
    nth_error (thr s) j = Some p /\ qticket p = Some (readers (lock s)).
Proof.
  intros Hinv Hq.
  apply tickets_In.
  pose proof (tickets_NoDup _ (inv_distinct _ Hinv)) as Hnd.
  pose proof (tickets_length (thr s)) as Hlen.
  set (r := readers (lock s)).
  set (c := length (tickets (thr s))) in *.
  set (l' := map (fun k => (r + Z.of_nat k) mod 65536) (seq 0 c)).
  assert (Hincl : incl l' (tickets (thr s))).
  { apply NoDup_length_incl; [exact Hnd| |].
    - unfold l'. rewrite length_map, length_seq. apply Nat.le_refl.
    - intros t Ht. apply tickets_In in Ht as (j & p & Hj & Hp).
      destruct (inv_pos _ Hinv _ _ _ Hj Hp) as [Rt Pt]. fold r in Pt.
      unfold l'. apply in_map_iff.
      exists (Z.to_nat ((t - r) mod 65536)). split.
      + rewrite Z2Nat.id by lia. pose proof (readers_range (lock s)).
        fold r in H. lia.
      + apply in_seq. lia. }
  apply Hincl. unfold l'. apply in_map_iff. exists O. split.
  - pose proof (readers_range (lock s)) as H. fold r in H.
    cbn [Z.of_nat]. lia.
  - apply in_seq. lia.
Qed.

(** X16: the lock never deadlocks.  With fewer than 65536 threads, in every
    state of every interleaving in which some thread owns a ticket, some
    owner of a ticket can go on: a thread that holds the lock, a reader at
    its increment, a writer at its add, or a waiting thread whose next test
    succeeds.  The threads that wait are never all stuck. *)
Theorem no_deadlock (n : nat) (sched : list (nat * call)) :
  Z.of_nat n < 65536 ->
  (exists i p,
     nth_error (thr (run sched (init n))) i = Some p /\
     has_ticket p = true) ->
  exists j q,
    nth_error (thr (run sched (init n))) j = Some q /\
    has_ticket q = true /\
    stuck (lock (run sched (init n))) q = false.
Proof.
  intros Hn (i & p & Hi & Hp).
  pose proof (inv_reachable n sched Hn) as Hinv.
  set (s := run sched (init n)) in *.
  pose proof (count_range is_holdr (thr s)) as Rh.
  destruct (Z.eq_dec (count is_holdr (thr s)) 0) as [H0|H0].
  - assert (Hq : 1 <= count is_queued (thr s)).
    { pose proof (count_mem _ _ _ _ Hi Hp).
      pose proof (count_classes (thr s)). lia. }
    destruct (inv_head s Hinv Hq) as (j & q & Hj & Ht).
    exists j, q. split; [exact Hj|]. split.
    + unfold has_ticket. rewrite (is_queued_ticket _ _ Ht). reflexivity.
    + assert (Hrw : readers (lock s) = writers (lock s)).
      { destruct Hinv as [Hl Iw Ir In Ih Iq Ipos Idis Iloc].
        rewrite Iw, Ir. f_equal. lia. }
      destruct q; cbn [stuck qticket] in *; try reflexivity;
        injection Ht as ->; rewrite ?Hrw, Z.eqb_refl; reflexivity.
  - destruct (count_ex is_holdr (thr s)) as (j & q & Hj & Hq); [lia|].
    exists j, q. split; [exact Hj|]. split.
    + unfold has_ticket. rewrite Hq. apply orb_true_r.
    + destruct q; try discriminate. reflexivity.
Qed.

(** Two threads: the writer has released, the waiting reader is served. *)
Lemma no_deadlock_witness :
  Z.of_nat 2 < 65536 /\
  exists j q,
    nth_error (thr (run handover_sched (init 2))) j = Some q /\
    has_ticket q = true /\
    stuck (lock (run handover_sched (init 2))) q = false.
Proof.
  split; [reflexivity|].
  apply (no_deadlock 2 handover_sched); [reflexivity|].
  exists 1%nat, (R_wait 1 0). split; reflexivity.
Defined.

(** ** The queue moves forward *)

Lemma step_pc_dr (c : call) (p : pc) (l : WT_RWLOCK) :
  match step_pc c p l with
  | (_, _, (_, dr, _)) => dr = 0 \/ dr = 1
  end.
Proof.
  destruct p; cbn [step_pc]; auto.
  - destruct c; cbn [__wt_atomic_fetch_add16_next]; auto.
  - destruct (__wt_try_readlock_from old l) as [ret l'].
    destruct (ret =? 0); auto.
  - destruct (__wt_try_readlock_from old l) as [ret l'].
    destruct (ret =? 0); auto.
  - destruct (negb (ticket =? readers l)); auto.
  - destruct (__wt_try_writelock_from old l) as [ret l'].
    destruct (ret =? 0); auto.
  - destruct (negb (ticket =? writers l)); auto.
Qed.

Lemma g_readers_step (e : nat * call) (s : sys) :
  g_readers (step e s) - g_readers s = 0 \/
  g_readers (step e s) - g_readers s = 1.
Proof.
  destruct e as [k c]. unfold step.
  destruct (nth_error (thr s) k) as [p|]; [|left; lia].
  pose proof (step_pc_dr c p (lock s)) as H.
  destruct (step_pc c p (lock s)) as [[p' l'] [[dn dr] dw]].
  cbn [move g_readers]. lia.
Qed.

(** X17: the queue only moves forward.  With fewer than 65536 threads, in
    any state of any interleaving and for any step of another thread, the
    distance from [readers] to the ticket of a thread that has not been
    passed goes down by one when the step increments [readers] (a reader is
    granted the lock, or a writer releases it) and stays as it is
    otherwise; a step increments [readers] at most once. *)
Theorem queue_advances (n : nat) (sched : list (nat * call))
    (k : nat) (c : call) (i : nat) (p : pc) (t : Z) :
  Z.of_nat n < 65536 ->
  i <> k ->
  nth_error (thr (run sched (init n))) i = Some p ->
  qticket p = Some t ->
  let s := run sched (init n) in
  let d := g_readers (step (k, c) s) - g_readers s in
  (d = 0 \/ d = 1) /\
  nth_error (thr (step (k, c) s)) i = Some p /\
  readers (lock (step (k, c) s)) = (readers (lock s) + d) mod 65536 /\
  (t - readers (lock (step (k, c) s))) mod 65536
  = (t - readers (lock s)) mod 65536 - d.
Proof.
  intros Hn Hik Hi Ht s d.
  pose proof (inv_reachable n sched Hn) as Hinv. fold s in Hinv, Hi.
  assert (Hsmall : Z.of_nat (length (thr s)) < 65536)
    by (unfold s; rewrite length_reachable; exact Hn).
  pose proof (inv_step (k, c) s Hinv) as Hinv'.
  pose proof (g_readers_step (k, c) s) as Hd. fold d in Hd.
  assert (Hi' : nth_error (thr (step (k, c) s)) i = Some p).
  { rewrite nth_error_step_other; assumption. }
  destruct (inv_pos _ Hinv _ _ _ Hi Ht) as [Rt P].
  destruct (inv_pos _ Hinv' _ _ _ Hi' Ht) as [_ P'].
  assert (Hlen : Z.of_nat (length (thr (step (k, c) s))) < 65536)
    by (rewrite length_step; exact Hsmall).
  pose proof (count_classes_le (thr (step (k, c) s))) as Hle.
  pose proof (count_range is_holdr (thr (step (k, c) s))) as Rh.
  pose proof (inv_readers _ Hinv) as Ir.
  pose proof (inv_readers _ Hinv') as Ir'.
  replace (g_readers (step (k, c) s)) with (g_readers s + d) in Ir'
    by (unfold d; lia).
  split; [exact Hd|]. split; [exact Hi'|].
  rewrite Ir' in *. rewrite Ir in *. split; lia.
Qed.

(** Two threads: the last store of the writer's release moves the waiting
    reader to the head of the queue. *)
Lemma queue_advances_witness :
  (1 - readers
         (lock (step (0%nat, TRY_WRITELOCK)
                  (run [(0, TRY_WRITELOCK); (0, TRY_WRITELOCK);
                        (1, READLOCK); (0, TRY_WRITELOCK);
                        (0, TRY_WRITELOCK)]%nat (init 2))))) mod 65536
  = (1 - readers
           (lock (run [(0, TRY_WRITELOCK); (0, TRY_WRITELOCK);
                       (1, READLOCK); (0, TRY_WRITELOCK);
                       (0, TRY_WRITELOCK)]%nat (init 2)))) mod 65536
    - (g_readers
         (step (0%nat, TRY_WRITELOCK)
            (run [(0, TRY_WRITELOCK); (0, TRY_WRITELOCK);
                  (1, READLOCK); (0, TRY_WRITELOCK);
                  (0, TRY_WRITELOCK)]%nat (init 2)))
       - g_readers
           (run [(0, TRY_WRITELOCK); (0, TRY_WRITELOCK);
                 (1, READLOCK); (0, TRY_WRITELOCK);
                 (0, TRY_WRITELOCK)]%nat (init 2))).
Proof.
  apply (queue_advances 2
           [(0, TRY_WRITELOCK); (0, TRY_WRITELOCK); (1, READLOCK);
            (0, TRY_WRITELOCK); (0, TRY_WRITELOCK)]%nat
           0 TRY_WRITELOCK 1 (R_wait 1 0) 1);
    [reflexivity|discriminate|reflexivity|reflexivity].
Defined.

(** ** The spinning reader, among other threads *)

Lemma run_spin_blocked (s : sys) (i : nat) (c : call) (k : nat) (q : pc) :
  readers (lock s) <> next (lock s) ->
  nth_error (thr s) i = Some q ->
  q = Spin_cas (lock s) \/ q = Spin_back \/ q = Spin_try ->
  exists q',
    is_spin q' = true /\
    run (repeat (i, c) k) s
    = mkSys (lock s) (upd i q' (thr s))
        (g_next s) (g_readers s) (g_writers s).
Proof.
  intros Hbusy. revert s q Hbusy.
  induction k as [|k IH]; intros s q Hbusy Hi Hq.
  - exists q. split.
    + destruct Hq as [->|[->| ->]]; reflexivity.
    + cbn [repeat run fold_left]. rewrite (upd_same _ _ _ Hi).
      destruct s; reflexivity.
  - cbn [repeat run fold_left]. change (fold_left _ ?a ?b) with (run a b).
    assert (E : exists q1,
               step (i, c) s = move s i q1 (lock s) 0 0 0 /\
               (q1 = Spin_cas (lock s) \/ q1 = Spin_back \/ q1 = Spin_try)).
    { rewrite (step_at s i c q Hi).
      destruct Hq as [->|[->| ->]]; cbn [step_pc].
      - destruct (try_readlock_from_cases (lock s) (lock s))
          as [(Hf & _)|[_ ->]]; [contradiction|].
        cbn [Z.eqb EBUSY]. eauto.
      - eauto.
      - eauto. }
    destruct E as (q1 & -> & Hq1).
    destruct (IH (move s i q1 (lock s) 0 0 0) q1) as (q' & Hs & Hr).
    + exact Hbusy.
    + cbn [move thr]. eapply nth_error_upd_same, Hi.
    + exact Hq1.
    + exists q'. split; [exact Hs|]. rewrite Hr.
      cbn [move lock thr g_next g_readers g_writers].
      rewrite upd_upd, !Z.add_0_r. reflexivity.
Qed.

(** X18: [__wt_readlock_spin] among other threads.  With fewer than 65536
    threads, in any state of any interleaving, an idle thread that calls
    [__wt_readlock_spin] and runs alone takes the read lock at its first
    try if [readers] has passed every ticket handed out: no thread waits,
    no writer holds the lock, and no reader is between the test that grants
    it its ticket and its increment of [readers].  If some thread is in one
    of these three cases, then after any number of its steps the caller is
    still in its loop, and the word, the other threads and the history are
    as they were: a spinning reader takes no ticket. *)
Theorem readlock_spin_outcome (n : nat) (sched : list (nat * call))
    (i k : nat) :
  Z.of_nat n < 65536 ->
  nth_error (thr (run sched (init n))) i = Some Idle ->
  let s := run sched (init n) in
  ((forall j p, nth_error (thr s) j = Some p -> is_queued p = false) ->
   nth_error (thr (run (repeat (i, READLOCK_SPIN) 2) s)) i = Some HoldR /\
   lock (run (repeat (i, READLOCK_SPIN) 2) s)
   = snd (__wt_try_readlock (lock s))) /\
  ((exists j p, nth_error (thr s) j = Some p /\ is_queued p = true) ->
   exists q,
     is_spin q = true /\
     run (repeat (i, READLOCK_SPIN) (S k)) s
     = mkSys (lock s) (upd i q (thr s))
         (g_next s) (g_readers s) (g_writers s)).
Proof.
  intros Hn Hi s.
  pose proof (inv_reachable n sched Hn) as Hinv. fold s in Hinv, Hi.
  assert (Hsmall : Z.of_nat (length (thr s)) < 65536)
    by (unfold s; rewrite length_reachable; exact Hn).
  pose proof (inv_queued_free s Hinv Hsmall) as Hfree.
  assert (E : step (i, READLOCK_SPIN) s
              = move s i (Spin_cas (lock s)) (lock s) 0 0 0).
  { rewrite (step_at s i _ _ Hi). reflexivity. }
  split.
  - intros Hnone. apply count_none in Hnone. apply Hfree in Hnone.
    cbn [repeat run fold_left]. rewrite E.
    rewrite (step_at _ i _ (Spin_cas (lock s)))
      by (cbn [move thr]; eapply nth_error_upd_same, Hi).
    cbn [step_pc move lock].
    rewrite (try_readlock_free _ Hnone).
    unfold __wt_try_readlock_from, __wt_atomic_cas64.
    rewrite Hnone, !Z.eqb_refl. cbn [negb Z.eqb move thr lock snd].
    split; [|reflexivity].
    eapply nth_error_upd_same, nth_error_upd_same, Hi.
  - intros (j & p & Hj & Hp).
    pose proof (count_mem _ _ _ _ Hj Hp) as H1.
    assert (Hbusy : readers (lock s) <> next (lock s)).
    { intros Hf. apply Hfree in Hf. lia. }
    cbn [repeat run fold_left]. change (fold_left _ ?a ?b) with (run a b).
    rewrite E.
    destruct (run_spin_blocked (move s i (Spin_cas (lock s)) (lock s) 0 0 0)
                i READLOCK_SPIN k (Spin_cas (lock s)))
      as (q & Hq & Hr).
    + exact Hbusy.
    + cbn [move thr]. eapply nth_error_upd_same, Hi.
    + left; reflexivity.
    + exists q. split; [exact Hq|]. rewrite Hr.
      cbn [move lock thr g_next g_readers g_writers].
      rewrite upd_upd, !Z.add_0_r. reflexivity.
Qed.

(** Two threads: thread 1 spins while thread 0 holds the write lock. *)
Lemma readlock_spin_outcome_witness :
  Z.of_nat 2 < 65536 /\
  nth_error (thr (run (try_write_steps 0) (init 2))) 1 = Some Idle /\
  exists q,
    is_spin q = true /\
    run (repeat (1%nat, READLOCK_SPIN) (S 6))
      (run (try_write_steps 0) (init 2))
    = mkSys (lock (run (try_write_steps 0) (init 2)))
        (upd 1 q (thr (run (try_write_steps 0) (init 2))))
        (g_next (run (try_write_steps 0) (init 2)))
        (g_readers (run (try_write_steps 0) (init 2)))
        (g_writers (run (try_write_steps 0) (init 2))).
Proof.
  split; [reflexivity|]. split; [reflexivity|].
  apply (readlock_spin_outcome 2 (try_write_steps 0) 1 6);
    [reflexivity|reflexivity|].
  exists O, (HoldW 0). split; reflexivity.
Defined.
